(** * Demo-mymr: the client-side cache and the asynchronous flows

    A shallow embedding of [App.js] (the persistent profile cache and the
    view selector) and of [components/PatientChat.js] (summary, chat,
    document-list and document-content flows, grouping and list rendering).

    JavaScript strings are sequences of UTF-16 code units; they are modelled
    as lists of [N].  React state is an explicit record; an asynchronous
    handler is split at its [await]: the part before it is a function that
    returns the new state and the requests it issues, the part after it is a
    function of the values the closure captured and of the response. *)

From Stdlib Require Import List NArith String Ascii Bool Lia Arith DecimalString.
From Stdlib Require DecimalNat.
Import ListNotations.

Set Implicit Arguments.
Set Warnings "-register-all".

(** ** JavaScript values *)

Module JS.

Definition jsstring := list N.

(** A string literal of the source, as code units. *)
Definition lit (s : string) : jsstring :=
  map N_of_ascii (list_ascii_of_string s).

(** Code units are 16 bits wide. *)
Definition unit_ok (c : N) : bool := (c <? 65536)%N.
Definition str_ok (s : jsstring) : bool := forallb unit_ok s.

Definition jsstring_eq_dec : forall a b : jsstring, {a = b} + {a <> b} :=
  list_eq_dec N.eq_dec.

Definition eqb_str (a b : jsstring) : bool :=
  if jsstring_eq_dec a b then true else false.

(** ECMAScript WhiteSpace and LineTerminator: what [String.prototype.trim]
    strips and what the regular expression class [\s] matches. *)
Definition is_space (c : N) : bool :=
  ((9 <=? c) && (c <=? 13) || (c =? 32) || (c =? 160) || (c =? 5760)
   || (8192 <=? c) && (c <=? 8202) || (c =? 8232) || (c =? 8233)
   || (c =? 8239) || (c =? 8287) || (c =? 12288) || (c =? 65279))%N.

Fixpoint trim_start (s : jsstring) : jsstring :=
  match s with
  | c :: t => if is_space c then trim_start t else s
  | [] => []
  end.

Definition trim (s : jsstring) : jsstring :=
  rev (trim_start (rev (trim_start s))).

(** [s.replace(/\s+/g, '')] *)
Definition strip_spaces (s : jsstring) : jsstring :=
  filter (fun c => negb (is_space c)) s.

(** Values that [JSON.parse] and [response.json()] produce.  A number is kept
    as its lexeme: its floating-point value is not interpreted.  The
    properties of an object are kept in insertion order; the engine lists
    keys that are array indices first, which changes the order of the text
    of an object and not the mapping. *)
Inductive json : Type :=
| JNull
| JBool (b : bool)
| JNum (lexeme : jsstring)
| JStr (s : jsstring)
| JArr (l : list json)
| JObj (m : list (jsstring * json)).

Definition object := list (jsstring * json).

(** Own properties of an object, in insertion order. *)
Fixpoint own (A : Type) (m : list (jsstring * A)) (k : jsstring) : option A :=
  match m with
  | [] => None
  | (k', v) :: t => if jsstring_eq_dec k k' then Some v else own t k
  end.

(** [m[k] = v]: replaces the value of an existing own property where it
    stands, appends a new one at the end. *)
Fixpoint set (A : Type) (m : list (jsstring * A)) (k : jsstring) (v : A)
  : list (jsstring * A) :=
  match m with
  | [] => [(k, v)]
  | (k', v') :: t =>
      if jsstring_eq_dec k k' then (k', v) :: t else (k', v') :: set t k v
  end.

(** Property names every ordinary object inherits from [Object.prototype]:
    [{}[k]] is a function (or the prototype itself) at these names. *)
Definition prototype_names : list jsstring :=
  map lit ["constructor"; "__proto__"; "hasOwnProperty"; "isPrototypeOf";
           "propertyIsEnumerable"; "toLocaleString"; "toString"; "valueOf";
           "__defineGetter__"; "__defineSetter__"; "__lookupGetter__";
           "__lookupSetter__"]%string.

Definition inherited (k : jsstring) : bool :=
  existsb (eqb_str k) prototype_names.

(** The digits of a number lexeme before its exponent are all zero. *)
Fixpoint lexeme_zero (s : jsstring) : bool :=
  match s with
  | [] => true
  | c :: t =>
      if ((c =? 101) || (c =? 69))%N then true
      else if ((49 <=? c) && (c <=? 57))%N then false
      else lexeme_zero t
  end.

(** ToBoolean.  A number is taken to be zero when its digits are; a lexeme
    with other digits whose value rounds to zero is not recognised. *)
Definition truthy (v : json) : bool :=
  match v with
  | JNull => false
  | JBool b => b
  | JNum l => negb (lexeme_zero l)
  | JStr s => match s with [] => false | _ => true end
  | JArr _ | JObj _ => true
  end.

End JS.

(** ** JSON text: [JSON.stringify] and [JSON.parse] *)

Module JSON.
Import JS.

Definition text := jsstring.

(** *** Serialisation *)

Definition hex_digit (d : N) : N :=
  if (d <? 10)%N then (48 + d)%N else (87 + d)%N.

(** [\uXXXX], lower-case hexadecimal. *)
Definition uescape (c : N) : text :=
  [92; 117; hex_digit (c / 4096); hex_digit ((c / 256) mod 16);
   hex_digit ((c / 16) mod 16); hex_digit (c mod 16)]%N.

Definition is_high (c : N) : bool := ((55296 <=? c) && (c <=? 56319))%N.
Definition is_low (c : N) : bool := ((56320 <=? c) && (c <=? 57343))%N.

(** One code unit that is not the first half of a surrogate pair. *)
Definition escape_unit (c : N) : text :=
  if (c =? 8)%N then [92; 98]%N
  else if (c =? 9)%N then [92; 116]%N
  else if (c =? 10)%N then [92; 110]%N
  else if (c =? 12)%N then [92; 102]%N
  else if (c =? 13)%N then [92; 114]%N
  else if (c =? 34)%N then [92; 34]%N
  else if (c =? 92)%N then [92; 92]%N
  else if (c <? 32)%N then uescape c
  else if is_low c then uescape c
  else [c].

(** QuoteJSONString without the surrounding quotes: a well-formed surrogate
    pair is copied, a lone surrogate is escaped. *)
Fixpoint quote_units (s : jsstring) : text :=
  match s with
  | [] => []
  | c :: t =>
      if is_high c then
        match t with
        | d :: t' =>
            if is_low d then c :: d :: quote_units t'
            else uescape c ++ quote_units t
        | [] => uescape c
        end
      else escape_unit c ++ quote_units t
  end.

Definition quote (s : jsstring) : text := (34%N :: quote_units s) ++ [34%N].

Fixpoint join (l : list text) : text :=
  match l with
  | [] => []
  | [x] => x
  | x :: t => x ++ 44%N :: join t
  end.

(** [JSON.stringify(v)] with no indentation. *)
Fixpoint stringify (v : json) : text :=
  match v with
  | JNull => lit "null"
  | JBool true => lit "true"
  | JBool false => lit "false"
  | JNum l => l
  | JStr s => quote s
  | JArr l => (91%N :: join (map stringify l)) ++ [93%N]
  | JObj m =>
      (123%N :: join (map (fun kv => quote (fst kv) ++ 58%N :: stringify (snd kv)) m))
      ++ [125%N]
  end.

(** *** Parsing *)

(** The outcome of a parser run with a recursion budget. *)
Inductive res (A : Type) : Type :=
| Ok (a : A)
| SyntaxError
| OutOfFuel.
Arguments SyntaxError {A}.
Arguments OutOfFuel {A}.

(** JSON whitespace: tab, line feed, carriage return, space. *)
Definition is_json_ws (c : N) : bool :=
  ((c =? 9) || (c =? 10) || (c =? 13) || (c =? 32))%N.

Fixpoint skip_ws (s : text) : text :=
  match s with
  | c :: t => if is_json_ws c then skip_ws t else s
  | [] => []
  end.

Definition is_digit (c : N) : bool := ((48 <=? c) && (c <=? 57))%N.

Definition hex_value (c : N) : option N :=
  if is_digit c then Some (c - 48)%N
  else if ((97 <=? c) && (c <=? 102))%N then Some (c - 87)%N
  else if ((65 <=? c) && (c <=? 70))%N then Some (c - 55)%N
  else None.

Definition hex4 (a b c d : N) : option N :=
  match hex_value a, hex_value b, hex_value c, hex_value d with
  | Some x, Some y, Some z, Some w => Some (x * 4096 + y * 256 + z * 16 + w)%N
  | _, _, _, _ => None
  end.

(** The character a two-character escape stands for. *)
Definition simple_escape (e : N) : option N :=
  if (e =? 34)%N then Some 34%N
  else if (e =? 92)%N then Some 92%N
  else if (e =? 47)%N then Some 47%N
  else if (e =? 98)%N then Some 8%N
  else if (e =? 102)%N then Some 12%N
  else if (e =? 110)%N then Some 10%N
  else if (e =? 114)%N then Some 13%N
  else if (e =? 116)%N then Some 9%N
  else None.

Definition cons_fst (c : N) (r : option (jsstring * text))
  : option (jsstring * text) :=
  match r with
  | Some (u, rest) => Some (c :: u, rest)
  | None => None
  end.

(** A string, after its opening quote, up to and including the closing one. *)
Fixpoint parse_string_body (s : text) : option (jsstring * text) :=
  match s with
  | [] => None
  | c :: t =>
      if (c =? 34)%N then Some ([], t)
      else if (c =? 92)%N then
        match t with
        | [] => None
        | e :: t1 =>
            match simple_escape e with
            | Some x => cons_fst x (parse_string_body t1)
            | None =>
                if (e =? 117)%N then
                  match t1 with
                  | h1 :: h2 :: h3 :: h4 :: t2 =>
                      match hex4 h1 h2 h3 h4 with
                      | Some x => cons_fst x (parse_string_body t2)
                      | None => None
                      end
                  | _ => None
                  end
                else None
            end
        end
      else if (c <? 32)%N then None
      else cons_fst c (parse_string_body t)
  end.

(** The longest run of decimal digits. *)
Fixpoint digits (s : text) : jsstring * text :=
  match s with
  | c :: t =>
      if is_digit c then let (d, r) := digits t in (c :: d, r) else ([], s)
  | [] => ([], [])
  end.

Definition digits1 (s : text) : option (jsstring * text) :=
  match digits s with
  | ([], _) => None
  | (d, r) => Some (d, r)
  end.

Definition int_part (s : text) : option (jsstring * text) :=
  match s with
  | c :: t =>
      if (c =? 48)%N then Some ([c], t)
      else if is_digit c then let (d, r) := digits t in Some (c :: d, r)
      else None
  | [] => None
  end.

Definition frac_part (s : text) : option (jsstring * text) :=
  match s with
  | c :: t =>
      if (c =? 46)%N then cons_fst c (digits1 t) else Some ([], s)
  | [] => Some ([], s)
  end.

Definition exp_part (s : text) : option (jsstring * text) :=
  match s with
  | c :: t =>
      if ((c =? 101) || (c =? 69))%N then
        match t with
        | g :: t1 =>
            if ((g =? 43) || (g =? 45))%N
            then cons_fst c (cons_fst g (digits1 t1))
            else cons_fst c (digits1 t)
        | [] => None
        end
      else Some ([], s)
  | [] => Some ([], s)
  end.

(** A number: [-? int frac? exp?], returned as its lexeme. *)
Definition parse_number (s : text) : option (jsstring * text) :=
  let (sign, s0) :=
    match s with
    | c :: t => if (c =? 45)%N then ([c], t) else ([], s)
    | [] => ([], s)
    end in
  match int_part s0 with
  | None => None
  | Some (i, s1) =>
      match frac_part s1 with
      | None => None
      | Some (f, s2) =>
          match exp_part s2 with
          | None => None
          | Some (e, s3) => Some (sign ++ i ++ f ++ e, s3)
          end
      end
  end.

(** [s] starts with the word [w]. *)
Fixpoint strip_prefix (w s : text) : option text :=
  match w, s with
  | [], _ => Some s
  | a :: w', b :: s' => if (a =? b)%N then strip_prefix w' s' else None
  | _ :: _, [] => None
  end.

Definition expect (c : N) (s : text) : option text :=
  match s with
  | x :: t => if (x =? c)%N then Some t else None
  | [] => None
  end.

Definition of_option (A : Type) (o : option A) : res A :=
  match o with Some a => Ok a | None => SyntaxError end.

(** A value, the members of an object after its first brace, the elements
    of an array after its first bracket.  Later duplicates of a key replace
    the value of the first one. *)
Fixpoint parse_value (fuel : nat) (s : text) {struct fuel} : res (json * text) :=
  match fuel with
  | O => OutOfFuel
  | S n =>
      match skip_ws s with
      | [] => SyntaxError
      | c :: t =>
          if (c =? 123)%N then
            match expect 125 (skip_ws t) with
            | Some r => Ok (JObj [], r)
            | None => parse_members n [] t
            end
          else if (c =? 91)%N then
            match expect 93 (skip_ws t) with
            | Some r => Ok (JArr [], r)
            | None => parse_elements n [] t
            end
          else if (c =? 34)%N then
            match parse_string_body t with
            | Some (u, r) => Ok (JStr u, r)
            | None => SyntaxError
            end
          else if (c =? 116)%N then
            match strip_prefix (lit "rue") t with
            | Some r => Ok (JBool true, r)
            | None => SyntaxError
            end
          else if (c =? 102)%N then
            match strip_prefix (lit "alse") t with
            | Some r => Ok (JBool false, r)
            | None => SyntaxError
            end
          else if (c =? 110)%N then
            match strip_prefix (lit "ull") t with
            | Some r => Ok (JNull, r)
            | None => SyntaxError
            end
          else
            match parse_number (c :: t) with
            | Some (l, r) => Ok (JNum l, r)
            | None => SyntaxError
            end
      end
  end
with parse_members (fuel : nat) (acc : object) (s : text) {struct fuel}
  : res (json * text) :=
  match fuel with
  | O => OutOfFuel
  | S n =>
      match expect 34 (skip_ws s) with
      | None => SyntaxError
      | Some s1 =>
          match parse_string_body s1 with
          | None => SyntaxError
          | Some (k, s2) =>
              match expect 58 (skip_ws s2) with
              | None => SyntaxError
              | Some s3 =>
                  match parse_value n s3 with
                  | Ok (v, s4) =>
                      match expect 44 (skip_ws s4) with
                      | Some s5 => parse_members n (set acc k v) s5
                      | None =>
                          match expect 125 (skip_ws s4) with
                          | Some s5 => Ok (JObj (set acc k v), s5)
                          | None => SyntaxError
                          end
                      end
                  | SyntaxError => SyntaxError
                  | OutOfFuel => OutOfFuel
                  end
              end
          end
      end
  end
with parse_elements (fuel : nat) (acc : list json) (s : text) {struct fuel}
  : res (json * text) :=
  match fuel with
  | O => OutOfFuel
  | S n =>
      match parse_value n s with
      | Ok (v, s1) =>
          match expect 44 (skip_ws s1) with
          | Some s2 => parse_elements n (acc ++ [v]) s2
          | None =>
              match expect 93 (skip_ws s1) with
              | Some s2 => Ok (JArr (acc ++ [v]), s2)
              | None => SyntaxError
              end
          end
      | SyntaxError => SyntaxError
      | OutOfFuel => OutOfFuel
      end
  end.

(** [JSON.parse(s)]: [None] when it throws a [SyntaxError].  The budget is
    never exhausted (lemma [JSONFacts.parse_never_out_of_fuel]). *)
Definition parse (s : text) : option json :=
  match parse_value (S (2 * List.length s)) s with
  | Ok (v, r) => match skip_ws r with [] => Some v | _ :: _ => None end
  | SyntaxError | OutOfFuel => None
  end.

End JSON.

(** ** The remote service, as the client sees it *)

Module Gateway.
Import JS.

(** The requests the client issues.  A patient name is carried as the
    component passes it, before [encodeURIComponent]. *)
Inductive request : Type :=
| GetProfile (patientName : jsstring)
| GetSummary (patientName : jsstring)
| PostQuery (patientName query : jsstring)
| GetDocuments (patientName : jsstring)
| PostDocumentContent (path : jsstring).

(** What [await response.json()] yields: the parsed body, or a rejection
    with the engine's message when the body is not JSON. *)
Inductive body (A : Type) : Type :=
| Json (a : A)
| NotJson (message : jsstring).
Arguments NotJson {A}.

(** What [await fetch(...)] yields: the promise rejects with an error that
    has a message, or it resolves to a response with its [ok] flag, its
    status and its body. *)
Inductive response (A : Type) : Type :=
| Rejected (message : jsstring)
| Resolved (ok : bool) (status : N) (b : body A).
Arguments Rejected {A}.

(** No lone surrogate: [encodeURIComponent] throws a [URIError] otherwise. *)
Fixpoint uri_ok (s : jsstring) : bool :=
  match s with
  | [] => true
  | c :: t =>
      if JSON.is_high c then
        match t with
        | d :: t' => JSON.is_low d && uri_ok t'
        | [] => false
        end
      else negb (JSON.is_low c) && uri_ok t
  end.

End Gateway.

(** ** App.js: the view selector and the persistent profile cache *)

Module App.
Import JS JSON Gateway.

Definition PROFILE_CACHE_KEY : jsstring := lit "patientProfileCache".

(** [useState] slots of [App], the [localStorage] item under
    [PROFILE_CACHE_KEY] ([None]: no such item), and the calls of
    [fetchAndCacheProfile] that are waiting for their response, each with
    the [profileCache] its closure captured. *)
Record state : Type := mkState {
  selectedPatient : option jsstring;
  profileCache : json;
  storage : option text;
  inflight : list (jsstring * json)
}.

Definition initial (saved : option text) : state :=
  mkState None (JObj []) saved [].

(** The mount effect: [getItem], [JSON.parse] inside [try], the [catch]
    only logs. *)
Definition load_effect (st : state) : state :=
  match storage st with
  | Some ((_ :: _) as savedCache) =>
      match parse savedCache with
      | Some v => mkState (selectedPatient st) v (storage st) (inflight st)
      | None => st
      end
  | Some [] | None => st
  end.

(** The cache the application starts with. *)
Definition loadFromStorage (saved : option text) : json :=
  profileCache (load_effect (initial saved)).

Fixpoint index_entries (A : Type) (i : nat) (l : list A) (f : A -> json)
  : object :=
  match l with
  | [] => []
  | x :: t =>
      (lit (NilEmpty.string_of_uint (Nat.to_uint i)), f x)
      :: index_entries (S i) t f
  end.

(** [{...v}]: the own enumerable properties of [v]. *)
Definition spread (v : json) : object :=
  match v with
  | JObj m => m
  | JArr l => index_entries 0 l (fun x => x)
  | JStr s => index_entries 0 s (fun c => JStr [c])
  | JNull | JBool _ | JNum _ => []
  end.

(** [put]: the two statements that follow the construction of the new
    mapping, in both branches of [fetchAndCacheProfile]. *)
Definition put (captured : json) (patientName : jsstring) (v : json)
  (st : state) : state :=
  let updatedCache := JObj (set (spread captured) patientName v) in
  mkState (selectedPatient st) updatedCache
          (Some (stringify updatedCache)) (inflight st).

(** [fetchAndCacheProfile] after its [await]s. *)
Definition fetchAndCacheProfile_resume (captured : json)
  (patientName : jsstring) (r : response json) (st : state) : state :=
  match r with
  | Resolved true _ (Json data) => put captured patientName data st
  | Resolved true _ (NotJson _) | Resolved false _ _ | Rejected _ =>
      put captured patientName JNull st
  end.

(** [!profileCache[patientName]].  [None]: the lookup throws (the cache is
    [null]) or the cache is a primitive or an array, which only a foreign
    store can produce and which is not modelled. *)
Definition not_cached (cache : json) (patientName : jsstring) : option bool :=
  match cache with
  | JObj m =>
      match own m patientName with
      | Some v => Some (negb (truthy v))
      | None => Some (negb (inherited patientName))
      end
  | _ => None
  end.

Definition handlePatientSelect (patientName : jsstring) (st : state)
  : option (state * list request) :=
  match not_cached (profileCache st) patientName with
  | None => None
  | Some true =>
      Some (mkState (Some patientName) (profileCache st) (storage st)
                    (inflight st ++ [(patientName, profileCache st)]),
            [GetProfile patientName])
  | Some false =>
      Some (mkState (Some patientName) (profileCache st) (storage st)
                    (inflight st), [])
  end.

Definition onBack (st : state) : state :=
  mkState None (profileCache st) (storage st) (inflight st).

(** [fetchPatientSummary] up to its [await], run by the effect of a
    [PatientChat] that mounts with this name. *)
Definition summary_on_mount (patientName : jsstring) : list request :=
  match patientName with
  | [] => []
  | _ :: _ => if uri_ok patientName then [GetSummary patientName] else []
  end.

Fixpoint remove_nth (A : Type) (i : nat) (l : list A) : list A :=
  match i, l with
  | _, [] => []
  | O, _ :: t => t
  | S j, x :: t => x :: remove_nth j t
  end.

(** What happens to the application. *)
Inductive event : Type :=
| Select (patientName : jsstring)
| Back
| ProfileResponse (i : nat) (r : response json).

(** One event: the new state and the requests it causes.  [Select] is the
    roster's view action, available while no patient is selected; the
    detail view it mounts issues its summary request. *)
Definition step (e : event) (st : state) : option (state * list request) :=
  match e with
  | Select patientName =>
      match selectedPatient st with
      | Some (_ :: _) => None
      | Some [] | None =>
          match handlePatientSelect patientName st with
          | Some (st', reqs) => Some (st', reqs ++ summary_on_mount patientName)
          | None => None
          end
      end
  | Back => Some (onBack st, [])
  | ProfileResponse i r =>
      match nth_error (inflight st) i with
      | Some (patientName, captured) =>
          let st' := fetchAndCacheProfile_resume captured patientName r st in
          Some (mkState (selectedPatient st') (profileCache st') (storage st')
                        (remove_nth i (inflight st')), [])
      | None => None
      end
  end.

Fixpoint run (es : list event) (st : state) : option (state * list request) :=
  match es with
  | [] => Some (st, [])
  | e :: es' =>
      match step e st with
      | Some (st1, r1) =>
          match run es' st1 with
          | Some (st2, r2) => Some (st2, r1 ++ r2)
          | None => None
          end
      | None => None
      end
  end.

End App.

(** ** components/PatientChat.js: the patient detail view *)

Module PatientChat.
Import JS JSON Gateway.

Definition decimal (n : N) : jsstring :=
  lit (NilEmpty.string_of_uint (N.to_uint n)).

(** What [setProfileData] receives on success.  A field holds whatever
    truthy value the response had there, or the placeholder. *)
Record profile : Type := mkProfile {
  medication_summary : json;
  lifestyle_recommendations : json;
  condition_summary : json
}.

Inductive sender : Type := user | bot.

(** [timestamp] is the reading of the clock, [new Date()], in milliseconds. *)
Record message : Type := mkMessage {
  msg_sender : sender;
  msg_text : jsstring;
  msg_timestamp : N;
  msg_isError : bool
}.

(** An entry of the document list; [None] is an absent field. *)
Record doc : Type := mkDoc {
  filename : jsstring;
  path : jsstring;
  category : option jsstring;
  classification : option jsstring
}.

(** The body of a document-content response. *)
Record content_body : Type := mkContent {
  body_content : jsstring;
  body_classification : jsstring
}.

(** The single selected-document slot. *)
Record docview : Type := mkView {
  view_filename : jsstring;
  view_content : jsstring;
  view_classification : jsstring
}.

(** The [useState] slots of the component, followed by the asynchronous
    calls that wait for a response: whether [fetchPatientSummary] does, the
    [newMessages] each waiting [handleQuerySubmit] captured, how many
    [openDocumentsModal] calls wait, and the [doc] each waiting
    [viewDocumentContent] captured. *)
Record state : Type := mkState {
  profileData : option profile;
  isLoading : bool;
  profileError : jsstring;
  messages : list message;
  query : jsstring;
  isQueryLoading : bool;
  isExpanded : bool;
  isModalOpen : bool;
  documents : list doc;
  isLoadingDocs : bool;
  selectedDoc : option docview;
  docError : jsstring;
  summaryPending : bool;
  queryPending : list (list message);
  docsPending : nat;
  contentPending : list doc
}.

Definition setProfileData (v : option profile) (st : state) : state :=
  mkState v (isLoading st) (profileError st) (messages st) (query st)
          (isQueryLoading st) (isExpanded st) (isModalOpen st) (documents
          st) (isLoadingDocs st) (selectedDoc st) (docError st)
          (summaryPending st) (queryPending st) (docsPending st)
          (contentPending st).

Definition setIsLoading (v : bool) (st : state) : state :=
  mkState (profileData st) v (profileError st) (messages st) (query st)
          (isQueryLoading st) (isExpanded st) (isModalOpen st) (documents
          st) (isLoadingDocs st) (selectedDoc st) (docError st)
          (summaryPending st) (queryPending st) (docsPending st)
          (contentPending st).

Definition setProfileError (v : jsstring) (st : state) : state :=
  mkState (profileData st) (isLoading st) v (messages st) (query st)
          (isQueryLoading st) (isExpanded st) (isModalOpen st) (documents
          st) (isLoadingDocs st) (selectedDoc st) (docError st)
          (summaryPending st) (queryPending st) (docsPending st)
          (contentPending st).

Definition setMessages (v : list message) (st : state) : state :=
  mkState (profileData st) (isLoading st) (profileError st) v (query st)
          (isQueryLoading st) (isExpanded st) (isModalOpen st) (documents
          st) (isLoadingDocs st) (selectedDoc st) (docError st)
          (summaryPending st) (queryPending st) (docsPending st)
          (contentPending st).

Definition setQuery (v : jsstring) (st : state) : state :=
  mkState (profileData st) (isLoading st) (profileError st) (messages st)
          v (isQueryLoading st) (isExpanded st) (isModalOpen st)
          (documents st) (isLoadingDocs st) (selectedDoc st) (docError st)
          (summaryPending st) (queryPending st) (docsPending st)
          (contentPending st).

Definition setIsQueryLoading (v : bool) (st : state) : state :=
  mkState (profileData st) (isLoading st) (profileError st) (messages st)
          (query st) v (isExpanded st) (isModalOpen st) (documents st)
          (isLoadingDocs st) (selectedDoc st) (docError st)
          (summaryPending st) (queryPending st) (docsPending st)
          (contentPending st).

Definition setIsExpanded (v : bool) (st : state) : state :=
  mkState (profileData st) (isLoading st) (profileError st) (messages st)
          (query st) (isQueryLoading st) v (isModalOpen st) (documents st)
          (isLoadingDocs st) (selectedDoc st) (docError st)
          (summaryPending st) (queryPending st) (docsPending st)
          (contentPending st).

Definition setIsModalOpen (v : bool) (st : state) : state :=
  mkState (profileData st) (isLoading st) (profileError st) (messages st)
          (query st) (isQueryLoading st) (isExpanded st) v (documents st)
          (isLoadingDocs st) (selectedDoc st) (docError st)
          (summaryPending st) (queryPending st) (docsPending st)
          (contentPending st).

Definition setDocuments (v : list doc) (st : state) : state :=
  mkState (profileData st) (isLoading st) (profileError st) (messages st)
          (query st) (isQueryLoading st) (isExpanded st) (isModalOpen st)
          v (isLoadingDocs st) (selectedDoc st) (docError st)
          (summaryPending st) (queryPending st) (docsPending st)
          (contentPending st).

Definition setIsLoadingDocs (v : bool) (st : state) : state :=
  mkState (profileData st) (isLoading st) (profileError st) (messages st)
          (query st) (isQueryLoading st) (isExpanded st) (isModalOpen st)
          (documents st) v (selectedDoc st) (docError st) (summaryPending
          st) (queryPending st) (docsPending st) (contentPending st).

Definition setSelectedDoc (v : option docview) (st : state) : state :=
  mkState (profileData st) (isLoading st) (profileError st) (messages st)
          (query st) (isQueryLoading st) (isExpanded st) (isModalOpen st)
          (documents st) (isLoadingDocs st) v (docError st)
          (summaryPending st) (queryPending st) (docsPending st)
          (contentPending st).

Definition setDocError (v : jsstring) (st : state) : state :=
  mkState (profileData st) (isLoading st) (profileError st) (messages st)
          (query st) (isQueryLoading st) (isExpanded st) (isModalOpen st)
          (documents st) (isLoadingDocs st) (selectedDoc st) v
          (summaryPending st) (queryPending st) (docsPending st)
          (contentPending st).

Definition setSummaryPending (v : bool) (st : state) : state :=
  mkState (profileData st) (isLoading st) (profileError st) (messages st)
          (query st) (isQueryLoading st) (isExpanded st) (isModalOpen st)
          (documents st) (isLoadingDocs st) (selectedDoc st) (docError st)
          v (queryPending st) (docsPending st) (contentPending st).

Definition setQueryPending (v : list (list message)) (st : state) : state :=
  mkState (profileData st) (isLoading st) (profileError st) (messages st)
          (query st) (isQueryLoading st) (isExpanded st) (isModalOpen st)
          (documents st) (isLoadingDocs st) (selectedDoc st) (docError st)
          (summaryPending st) v (docsPending st) (contentPending st).

Definition setDocsPending (v : nat) (st : state) : state :=
  mkState (profileData st) (isLoading st) (profileError st) (messages st)
          (query st) (isQueryLoading st) (isExpanded st) (isModalOpen st)
          (documents st) (isLoadingDocs st) (selectedDoc st) (docError st)
          (summaryPending st) (queryPending st) v (contentPending st).

Definition setContentPending (v : list doc) (st : state) : state :=
  mkState (profileData st) (isLoading st) (profileError st) (messages st)
          (query st) (isQueryLoading st) (isExpanded st) (isModalOpen st)
          (documents st) (isLoadingDocs st) (selectedDoc st) (docError st)
          (summaryPending st) (queryPending st) (docsPending st) v.

Definition initial : state :=
  mkState None true [] [] [] false false false [] false None [] false [] 0 [].

(** [a || b] on strings. *)
Definition or_default (a b : jsstring) : jsstring :=
  match a with [] => b | _ :: _ => a end.

(** [v.k] for a name [k] that no built-in prototype defines and that is
    neither an array index nor [length] (the component reads [summary] and
    the three field names): [None] when [v] is [null] and the access throws,
    [Some None] for [undefined]. *)
Definition get_field (v : json) (k : jsstring) : option (option json) :=
  match v with
  | JNull => None
  | JObj m => Some (own m k)
  | JBool _ | JNum _ | JStr _ | JArr _ => Some None
  end.

(** [o?.k || placeholder], [o] being [undefined] when [None]. *)
Definition field_or (o : option json) (k placeholder : jsstring) : json :=
  match o with
  | None | Some JNull => JStr placeholder
  | Some v =>
      match get_field v k with
      | Some (Some x) => if truthy x then x else JStr placeholder
      | Some None | None => JStr placeholder
      end
  end.

(** The object literal passed to [setProfileData]; [summary] is
    [data.summary]. *)
Definition normalize (summary : option json) : profile :=
  mkProfile
    (field_or summary (lit "medication_summary")
       (lit "No medication information available."))
    (field_or summary (lit "lifestyle_recommendations")
       (lit "No lifestyle recommendations available."))
    (field_or summary (lit "condition_summary")
       (lit "No condition information available.")).

(** Messages of errors the engine raises (V8's wording). *)
Definition uri_error_message : jsstring := lit "URI malformed".
Definition null_summary_message : jsstring :=
  lit "Cannot read properties of null (reading 'summary')".

(** The answer of the query endpoint as [handleQuerySubmit] uses it: the
    text of the bot message ([data.answer], or its JSON rendering), or the
    message of the error that was thrown. *)
Inductive reply : Type :=
| Answer (botText : jsstring)
| Failure (message : jsstring).

Section Component.

(** The prop of the component. *)
Variable patientName : jsstring.

(** The [catch] and [finally] blocks of [fetchPatientSummary]. *)
Definition summary_failed (message : jsstring) (st : state) : state :=
  setIsLoading false
    (setProfileData None
       (setProfileError
          (or_default message (lit "Could not load patient summary.")) st)).

(** [fetchPatientSummary] up to its first [await]. *)
Definition fetchPatientSummary (st : state) : state * list request :=
  match patientName with
  | [] => (st, [])
  | _ :: _ =>
      let st1 := setProfileError [] (setIsLoading true st) in
      if uri_ok patientName
      then (setSummaryPending true st1, [GetSummary patientName])
      else (summary_failed uri_error_message st1, [])
  end.

(** [fetchPatientSummary] after its [await]s. *)
Definition fetchPatientSummary_resume (r : response json) (st : state)
  : state :=
  match r with
  | Rejected message => summary_failed message st
  | Resolved false status _ =>
      if (status =? 404)%N
      then summary_failed
             (lit "No summary found for " ++ 34%N :: patientName ++
              34%N :: lit ".") st
      else summary_failed (lit "Server error: " ++ decimal status) st
  | Resolved true _ (NotJson message) => summary_failed message st
  | Resolved true _ (Json data) =>
      match get_field data (lit "summary") with
      | None => summary_failed null_summary_message st
      | Some summary =>
          setIsLoading false (setProfileData (Some (normalize summary)) st)
      end
  end.

Definition is_empty (s : jsstring) : bool :=
  match s with [] => true | _ :: _ => false end.

(** [handleQuerySubmit] up to its [await]; [now] is the clock. *)
Definition handleQuerySubmit (now : N) (st : state) : state * list request :=
  if is_empty (trim (query st)) || isQueryLoading st then (st, [])
  else
    let userMessage := mkMessage user (query st) now false in
    let newMessages := messages st ++ [userMessage] in
    (setQueryPending (queryPending st ++ [newMessages])
       (setQuery [] (setIsQueryLoading true (setMessages newMessages st))),
     [PostQuery patientName (query st)]).

(** [handleQuerySubmit] after its [await]s, with the [newMessages] of its
    closure. *)
Definition handleQuerySubmit_resume (newMessages : list message) (now : N)
  (r : reply) (st : state) : state :=
  match r with
  | Answer botText =>
      setIsQueryLoading false
        (setMessages (newMessages ++ [mkMessage bot botText now false]) st)
  | Failure message =>
      setIsQueryLoading false
        (setMessages
           (newMessages ++
            [mkMessage bot
               (lit "Sorry, I encountered an error: " ++ message ++
                lit ". Please ensure the backend server is running on port 8000.")
               now true]) st)
  end.

(** The [catch] and [finally] blocks of [openDocumentsModal]. *)
Definition documents_failed (message : jsstring) (st : state) : state :=
  setIsLoadingDocs false
    (setDocError
       (or_default message
          (lit "Could not load documents. Please check backend.")) st).

(** [openDocumentsModal] up to its first [await]. *)
Definition openDocumentsModal (st : state) : state * list request :=
  let st1 := setIsModalOpen true st in
  match documents st with
  | _ :: _ => (st1, [])
  | [] =>
      let st2 := setDocError [] (setIsLoadingDocs true st1) in
      if uri_ok patientName
      then (setDocsPending (S (docsPending st)) st2, [GetDocuments patientName])
      else (documents_failed uri_error_message st2, [])
  end.

(** [openDocumentsModal] after its [await]s. *)
Definition openDocumentsModal_resume (r : response (list doc)) (st : state)
  : state :=
  match r with
  | Rejected message => documents_failed message st
  | Resolved false status _ =>
      documents_failed (lit "Failed to fetch documents: " ++ decimal status) st
  | Resolved true _ (NotJson message) => documents_failed message st
  | Resolved true _ (Json docsList) =>
      let st1 := setDocuments docsList st in
      setIsLoadingDocs false
        match docsList with
        | [] => setDocError (lit "No documents found for this patient.") st1
        | _ :: _ => st1
        end
  end.

(** [viewDocumentContent] up to its [await]. *)
Definition viewDocumentContent (d : doc) (st : state) : state * list request :=
  (setContentPending (contentPending st ++ [d])
     (setDocError []
        (setSelectedDoc (Some (mkView (filename d) (lit "Loading...") [])) st)),
   [PostDocumentContent (path d)]).

Definition content_failed (d : doc) (message : jsstring) (st : state) : state :=
  setSelectedDoc
    (Some (mkView (filename d)
             (lit "Error loading content. Please try again.") []))
    (setDocError (or_default message (lit "Could not load document content."))
       st).

(** [viewDocumentContent] after its [await]s, with the [doc] of its
    closure. *)
Definition viewDocumentContent_resume (d : doc) (r : response content_body)
  (st : state) : state :=
  match r with
  | Rejected message => content_failed d message st
  | Resolved false status _ =>
      content_failed d (lit "Failed to load document: " ++ decimal status) st
  | Resolved true _ (NotJson message) => content_failed d message st
  | Resolved true _ (Json data) =>
      setSelectedDoc
        (Some (mkView (filename d) (body_content data)
                 (body_classification data))) st
  end.

Definition closeModal (st : state) : state :=
  setDocError [] (setSelectedDoc None (setIsModalOpen false st)).

End Component.

(** *** Grouping and the document list *)

Definition groups := list (jsstring * list doc).

(** [doc.category || 'Other'] *)
Definition group_name (d : doc) : jsstring :=
  match category d with
  | Some ((_ :: _) as c) => c
  | Some [] | None => lit "Other"
  end.

(** The body of the reducer.  [None]: [groups[cat]] is a value inherited
    from [Object.prototype], which has no [push], and the call throws a
    [TypeError]. *)
Definition group_step (acc : option groups) (d : doc) : option groups :=
  match acc with
  | None => None
  | Some g =>
      let cat := group_name d in
      match own g cat with
      | Some l => Some (set g cat (l ++ [d]))
      | None => if inherited cat then None else Some (set g cat [d])
      end
  end.

(** [documents.reduce(..., {})], the groups in the order in which their
    first document occurs. *)
Definition groupedDocuments (docs : list doc) : option groups :=
  fold_left group_step docs (Some []).

Fixpoint mapM (A B : Type) (f : A -> option B) (l : list A)
  : option (list B) :=
  match l with
  | [] => Some []
  | x :: t =>
      match f x, mapM f t with
      | Some y, Some r => Some (y :: r)
      | _, _ => None
      end
  end.

(** A list item as rendered: its class and its label. *)
Record item : Type := mkItem {
  item_class : jsstring;
  item_label : jsstring
}.

Section Render.

(** [String.prototype.toLowerCase], the engine's Unicode case mapping. *)
Variable toLowerCase : jsstring -> jsstring.

(** The [className] of a list item; [None]: [doc.category] is [undefined]
    and [toLowerCase] is called on it. *)
Definition className (d : doc) : option jsstring :=
  match category d with
  | None => None
  | Some c => Some (lit "doc-item " ++ strip_spaces (toLowerCase c))
  end.

Definition render_item (d : doc) : option item :=
  match className d with
  | Some c => Some (mkItem c (filename d))
  | None => None
  end.

Definition render_section (cd : jsstring * list doc)
  : option (jsstring * list item) :=
  match mapM render_item (snd cd) with
  | Some items => Some (fst cd, items)
  | None => None
  end.

(** The last branch of the modal body: one section per group. *)
Definition render_document_list (docs : list doc)
  : option (list (jsstring * list item)) :=
  match groupedDocuments docs with
  | Some g => mapM render_section g
  | None => None
  end.

End Render.

(** *** The component as a transition system *)

Inductive event : Type :=
| SummaryResponse (r : response json)
| Expand
| Collapse
| SetQuery (s : jsstring)
| Submit (now : N)
| QueryResponse (i : nat) (now : N) (r : reply)
| OpenDocuments
| DocsResponse (r : response (list doc))
| ViewDocument (i : nat)
| ContentResponse (i : nat) (r : response content_body)
| BackToList
| CloseModal.

(** The third branch of the top-level conditional is rendered. *)
Definition main_shown (st : state) : bool :=
  negb (isLoading st) && is_empty (profileError st).

(** The document list is rendered in the modal. *)
Definition list_shown (st : state) : bool :=
  main_shown st && isModalOpen st && negb (isLoadingDocs st)
  && is_empty (docError st)
  && match selectedDoc st with None => true | Some _ => false end.

Definition remove_nth := App.remove_nth.

Section Machine.

Variable patientName : jsstring.

(** The component right after it mounted and its effect ran. *)
Definition mounted : state * list request :=
  fetchPatientSummary patientName initial.

(** One event.  A user action is possible when its control is rendered; a
    response is possible when a call waits for it. *)
Definition step (e : event) (st : state) : option (state * list request) :=
  match e with
  | SummaryResponse r =>
      if summaryPending st
      then Some (setSummaryPending false
                   (fetchPatientSummary_resume patientName r st), [])
      else None
  | Expand =>
      if main_shown st && negb (isExpanded st)
      then Some (setIsExpanded true st, []) else None
  | Collapse =>
      if main_shown st && isExpanded st
      then Some (setIsExpanded false st, []) else None
  | SetQuery s =>
      if main_shown st && isExpanded st && negb (isQueryLoading st)
      then Some (setQuery s st, []) else None
  | Submit now =>
      if main_shown st && isExpanded st
      then Some (handleQuerySubmit patientName now st) else None
  | QueryResponse i now r =>
      match nth_error (queryPending st) i with
      | Some newMessages =>
          Some (setQueryPending (remove_nth i (queryPending st))
                  (handleQuerySubmit_resume newMessages now r st), [])
      | None => None
      end
  | OpenDocuments =>
      if main_shown st then Some (openDocumentsModal patientName st) else None
  | DocsResponse r =>
      match docsPending st with
      | S n => Some (setDocsPending n (openDocumentsModal_resume r st), [])
      | O => None
      end
  | ViewDocument i =>
      if list_shown st then
        match nth_error (documents st) i with
        | Some d => Some (viewDocumentContent d st)
        | None => None
        end
      else None
  | ContentResponse i r =>
      match nth_error (contentPending st) i with
      | Some d =>
          Some (setContentPending (remove_nth i (contentPending st))
                  (viewDocumentContent_resume d r st), [])
      | None => None
      end
  | BackToList =>
      if main_shown st && isModalOpen st && negb (isLoadingDocs st)
         && is_empty (docError st)
         && match selectedDoc st with Some _ => true | None => false end
      then Some (setSelectedDoc None st, []) else None
  | CloseModal =>
      if main_shown st && isModalOpen st then Some (closeModal st, []) else None
  end.

Fixpoint run (es : list event) (st : state) : option (state * list request) :=
  match es with
  | [] => Some (st, [])
  | e :: es' =>
      match step e st with
      | Some (st1, r1) =>
          match run es' st1 with
          | Some (st2, r2) => Some (st2, r1 ++ r2)
          | None => None
          end
      | None => None
      end
  end.

(** The states the component can be in. *)
Inductive reachable : state -> Prop :=
| reach_mount : reachable (fst mounted)
| reach_step e st st' reqs :
    reachable st -> step e st = Some (st', reqs) -> reachable st'.

End Machine.

End PatientChat.

(** ** Notions used in the statements *)

Module Words.
Import JS JSON Gateway PatientChat.

(** The field [k] of the [summary] object of a raw response, [None] when
    the response has no such object or the object has no such field. *)
Definition raw_field (data : json) (k : jsstring) : option json :=
  match data with
  | JObj m =>
      match own m (lit "summary") with
      | Some (JObj s) => own s k
      | _ => None
      end
  | _ => None
  end.

(** A field that is absent, or present with a falsy value, shows the
    placeholder; any other field shows its value. *)
Definition shown (raw : option json) (placeholder : jsstring) : json :=
  match raw with
  | Some v => if truthy v then v else JStr placeholder
  | None => JStr placeholder
  end.

(** No string occurs twice. *)
Fixpoint distinct (l : list jsstring) : bool :=
  match l with
  | [] => true
  | k :: t => negb (existsb (eqb_str k) t) && distinct t
  end.

(** The values a cache of summaries and sentinels is made of, and more:
    [null], booleans, strings of 16-bit code units, arrays and objects of
    such values, an object having each of its keys once.  Numbers are left
    out, their text being written from their floating-point value. *)
Fixpoint storable (v : json) : bool :=
  match v with
  | JNull | JBool _ => true
  | JNum _ => false
  | JStr s => str_ok s
  | JArr l => forallb storable l
  | JObj m =>
      distinct (map fst m)
      && forallb (fun kv => str_ok (fst kv) && storable (snd kv)) m
  end.

(** A [ProfileSummary]: three strings. *)
Definition summary_value (medication lifestyle condition : jsstring) : json :=
  JObj [(lit "medication_summary", JStr medication);
        (lit "lifestyle_recommendations", JStr lifestyle);
        (lit "condition_summary", JStr condition)].

(** A value written to the cache: a summary or the failed sentinel. *)
Inductive entry : Type :=
| Summary (medication lifestyle condition : jsstring)
| Failed.

Definition entry_value (e : entry) : json :=
  match e with
  | Summary m l c => summary_value m l c
  | Failed => JNull
  end.

Definition entry_ok (e : entry) : bool :=
  match e with
  | Summary m l c => str_ok m && str_ok l && str_ok c
  | Failed => true
  end.

(** The recursion budget the parser needs for a value. *)
Fixpoint weight (v : json) : nat :=
  match v with
  | JArr l => S (list_sum (map (fun x => S (weight x)) l))
  | JObj m => S (list_sum (map (fun kv => S (weight (snd kv))) m))
  | JNull | JBool _ | JNum _ | JStr _ => 1
  end.

(** The text of one property of an object. *)
Definition member (kv : jsstring * json) : text :=
  quote (fst kv) ++ 58%N :: stringify (snd kv).

(** A sequence of cache writes, each made by a call of
    [fetchAndCacheProfile] whose closure holds the cache the write before
    it left. *)
Fixpoint apply_writes (ws : list (jsstring * entry)) (st : App.state)
  : App.state :=
  match ws with
  | [] => st
  | (id, e) :: t =>
      apply_writes t (App.put (App.profileCache st) id (entry_value e) st)
  end.

(** The mapping a sequence of writes builds up. *)
Definition written (ws : list (jsstring * entry)) (m : object) : object :=
  fold_left (fun acc w => set acc (fst w) (entry_value (snd w))) ws m.

Definition write_ok (w : jsstring * entry) : bool :=
  str_ok (fst w) && entry_ok (snd w).

(** What a state looks like after a write. *)
Definition synced (st : App.state) : Prop :=
  exists m, App.profileCache st = JObj m
            /\ storable (JObj m) = true
            /\ App.storage st = Some (stringify (JObj m)).



(** A parser run ended, and a successful one consumed some of its input. *)
Definition progress (A : Type) (r : JSON.res (A * text)) (s : text) : Prop :=
  match r with
  | JSON.Ok (_, rest) => List.length rest < List.length s
  | JSON.SyntaxError => True
  | JSON.OutOfFuel => False
  end.

(** A value is read back from its text, whatever follows the text. *)
Definition reads (v : json) : Prop :=
  forall fuel rest,
    weight v <= fuel ->
    parse_value fuel (stringify v ++ rest) = JSON.Ok (v, rest).

(** At most one submission waits for its answer, and [isQueryLoading] is
    set exactly while one does. *)
Definition query_gate (st : state) : Prop :=
  (isQueryLoading st = false /\ queryPending st = [])
  \/ (isQueryLoading st = true /\ exists m, queryPending st = [m]).

(** A summary request is only ever waiting, and the main panel only ever
    shown, for a name that [encodeURIComponent] accepts. *)
Definition uri_gate (patientName : jsstring) (st : state) : Prop :=
  (summaryPending st = true -> uri_ok patientName = true)
  /\ (main_shown st = true -> uri_ok patientName = true).

(** The document belongs under the heading [k]. *)
Definition named (k : jsstring) (d : doc) : bool := eqb_str (group_name d) k.

End Words.

(** ** Sample data *)

Module Samples.
Import JS JSON Gateway PatientChat.

Definition jane : jsstring := lit "Jane Doe".

Definition docA : doc :=
  mkDoc (lit "a.pdf") (lit "/docs/a.pdf") (Some (lit "Labs")) None.
Definition docB : doc :=
  mkDoc (lit "b.pdf") (lit "/docs/b.pdf") (Some (lit "Labs")) None.
Definition docC : doc :=
  mkDoc (lit "c.pdf") (lit "/docs/c.pdf") None None.

Definition contentA : content_body :=
  mkContent (lit "content of a.pdf") (lit "Lab report").
Definition contentB : content_body :=
  mkContent (lit "content of b.pdf") (lit "Lab report").

Definition ok (A : Type) (a : A) : response A := Resolved true 200 (Json a).

(** The user opens the documents, views [docA], returns to the list and
    views [docB]; the content of [docB] arrives first, that of [docA]
    last. *)
Definition late_response_trace : list event :=
  [SummaryResponse (ok (JObj [])); OpenDocuments;
   DocsResponse (ok [docA; docB]); ViewDocument 0; BackToList;
   ViewDocument 1; ContentResponse 1 (ok contentB);
   ContentResponse 0 (ok contentA)].

(** A document whose category is the name of a property that every object
    inherits. *)
Definition docProto : doc :=
  mkDoc (lit "d.pdf") (lit "/docs/d.pdf") (Some (lit "constructor")) None.

(** A summary is stored for one patient, then the sentinel for another,
    then a summary replaces the first one. *)
Definition sample_writes : list (jsstring * Words.entry) :=
  [(jane, Words.Summary (lit "Metformin") (lit "Walk daily") (lit "Diabetes"));
   (lit "Bob", Words.Failed);
   (jane, Words.Summary (lit "Insulin") (lit "Walk daily") (lit "Diabetes"))].

(** The state the detail view of [jane] is in after the events [es]. *)
Definition after (es : list event) : state :=
  match run jane es (fst (mounted jane)) with
  | Some (st, _) => st
  | None => fst (mounted jane)
  end.

(** The summary has arrived, the chat is open, a question was typed and
    submitted, and its answer has not arrived yet. *)
Definition question_sent : list event :=
  [SummaryResponse (ok (JObj [])); Expand;
   SetQuery (lit "What medications?"); Submit 1000].

(** A summary response that has the medication field only. *)
Definition metformin_only : json :=
  JObj [(lit "summary",
         JObj [(lit "medication_summary", JStr (lit "Metformin"))])].

End Samples.

(** ** components/PatientList.js: the roster *)

Module PatientList.
Import JS Gateway.

(** A row of the table. *)
Record patient : Type := mkPatient {
  id : jsstring;
  name : jsstring;
  date : jsstring
}.

(** The [useState] slots of the component. *)
Record state : Type := mkState {
  patients : list patient;
  error : jsstring;
  searchTerm : jsstring
}.

Definition initial : state := mkState [] [] [].

(** An array index in a template literal. *)
Definition decimal (n : nat) : jsstring :=
  lit (NilEmpty.string_of_uint (Nat.to_uint n)).

(** [t] is a prefix of [s]. *)
Fixpoint starts_with (t s : jsstring) : bool :=
  match t, s with
  | [], _ => true
  | a :: t', b :: s' => (a =? b)%N && starts_with t' s'
  | _ :: _, [] => false
  end.

(** [s.includes(t)]: [t] occurs in [s]. *)
Fixpoint includes (s t : jsstring) : bool :=
  starts_with t s
  || match s with
     | [] => false
     | _ :: s' => includes s' t
     end.

(** What [handleActionClick] does besides stopping the event. *)
Inductive outcome : Type :=
| onPatientSelect (patientName : jsstring)
| alert (message : jsstring).

(** What the component returns: the error panel, or the table with its
    rows (with the row "No patients found." when there is none). *)
Inductive view : Type :=
| ErrorPanel (message : jsstring)
| Table (rows : list patient).

Section Component.

(** [String.prototype.toLowerCase], the engine's Unicode case mapping. *)
Variable toLowerCase : jsstring -> jsstring.

(** [new Date(2024, 0, 15 + index * 5).toISOString().split('T')[0]]: the
    engine's calendar, in the time zone of the browser. *)
Variable isoDate : nat -> jsstring.

(** [data.patients.map((patientName, index) => ...)], from [index] on. *)
Fixpoint transform_from (index : nat) (names : list jsstring)
  : list patient :=
  match names with
  | [] => []
  | patientName :: t =>
      mkPatient (lit "patient-" ++ decimal (index + 1)) patientName
        (isoDate index)
      :: transform_from (S index) t
  end.

Definition transformedPatients (names : list jsstring) : list patient :=
  transform_from 0 names.

(** The promise chain of the mount effect; the body is [data.patients],
    [None] when the response has no such array and [map] is called on
    [undefined]. *)
Definition roster_response (r : response (option (list jsstring)))
  (st : state) : state :=
  match r with
  | Resolved true _ (Json (Some names)) =>
      mkState (transformedPatients names) (error st) (searchTerm st)
  | Resolved true _ (Json None) | Resolved true _ (NotJson _)
  | Resolved false _ _ | Rejected _ =>
      mkState (patients st)
        (lit "Could not fetch patient list. Please ensure the backend server is running.")
        (searchTerm st)
  end.

Definition handleSearchChange (value : jsstring) (st : state) : state :=
  mkState (patients st) (error st) value.

Definition handleActionClick (actionType : jsstring) (p : patient)
  : outcome :=
  if eqb_str actionType (lit "view") then onPatientSelect (name p)
  else alert (actionType ++ lit " for " ++ name p ++ lit " (ID: " ++ id p
              ++ lit ") - Not fully implemented yet.").

Definition filteredPatients (st : state) : list patient :=
  filter (fun p => includes (toLowerCase (name p))
                     (toLowerCase (searchTerm st)))
    (patients st).

Definition render (st : state) : view :=
  match error st with
  | _ :: _ => ErrorPanel (error st)
  | [] => Table (filteredPatients st)
  end.

End Component.

End PatientList.

(** ** Further notions used in the statements *)

Module Notions.
Import JS JSON Gateway PatientChat.

(** The three fields of a profile are truthy. *)
Definition populated (p : profile) : Prop :=
  truthy (medication_summary p) = true
  /\ truthy (lifestyle_recommendations p) = true
  /\ truthy (condition_summary p) = true.

(** The three faces of the summary panel: loading with nothing held, an
    error message with nothing held, or a populated profile without error;
    a waiting request has no error yet. *)
Definition summary_view (st : state) : Prop :=
  ((isLoading st = true /\ profileData st = None /\ profileError st = [])
   \/ (isLoading st = false /\ profileData st = None
       /\ profileError st <> [])
   \/ (isLoading st = false /\ profileError st = []
       /\ exists p, profileData st = Some p /\ populated p))
  /\ (summaryPending st = true -> profileError st = []).

(** A set loading flag has a request behind it. *)
Definition flags_live (patientName : jsstring) (st : state) : Prop :=
  (isLoadingDocs st = true -> 0 < docsPending st)
  /\ (patientName <> [] -> isLoading st = true -> summaryPending st = true).

(** While a submission waits, the transcript is the one its closure
    captured. *)
Definition transcript_held (st : state) : Prop :=
  forall m, queryPending st = [m] -> messages st = m.

Definition is_user (m : message) : bool :=
  match msg_sender m with user => true | bot => false end.

(** The texts of the user's messages, in order. *)
Definition user_texts (ms : list message) : list jsstring :=
  map msg_text (filter is_user ms).

(** The texts of the queries among requests, in order. *)
Fixpoint queries (reqs : list request) : list jsstring :=
  match reqs with
  | [] => []
  | PostQuery _ q :: t => q :: queries t
  | _ :: t => queries t
  end.

Definition flip (s : sender) : sender :=
  match s with user => bot | bot => user end.

Definition same_sender (a b : sender) : bool :=
  match a, b with
  | user, user | bot, bot => true
  | _, _ => false
  end.

(** The senders alternate, starting with [next]; the result is the sender
    whose turn it is after the last message. *)
Fixpoint alternates (next : sender) (ms : list message) : option sender :=
  match ms with
  | [] => Some next
  | m :: t =>
      if same_sender (msg_sender m) next then alternates (flip next) t
      else None
  end.

(** The sender whose message comes next: the bot while a submission
    waits, the user otherwise. *)
Definition turn (st : state) : sender :=
  if isQueryLoading st then bot else user.

(** What the chat keeps: the gate, the held transcript and the
    alternation. *)
Definition chat_inv (st : state) : Prop :=
  Words.query_gate st /\ transcript_held st
  /\ alternates user (messages st) = Some (turn st).

(** When the modal shows neither the spinner nor an error, there are
    documents. *)
Definition list_filled (st : state) : Prop :=
  isModalOpen st = true -> isLoadingDocs st = false -> docError st = [] ->
  documents st <> [].

(** The number of documents in all groups. *)
Definition grouped_count (g : groups) : nat :=
  list_sum (map (fun kd => List.length (snd kd)) g).

(** No group is headed by an inherited name. *)
Definition own_names (g : groups) : Prop :=
  forall k, In k (map fst g) -> inherited k = false.

(** A chat in which two questions were asked, the first answered, the
    second failed. *)
Definition two_questions : list event :=
  [SummaryResponse (Samples.ok (JObj [])); Expand;
   SetQuery (lit "What medications?"); Submit 1000;
   QueryResponse 0 1500 (Answer (lit "Metformin."));
   SetQuery (lit " Any allergies? "); Submit 2000;
   QueryResponse 0 2500 (Failure (lit "Failed to fetch"))].

(** The state of the application after the events [es], started without
    stored cache. *)
Definition app_after (es : list App.event) : App.state :=
  match App.run es (App.initial None) with
  | Some (st, _) => st
  | None => App.initial None
  end.


(** The stored text is absent, is not JSON, or is the text of an object. *)
Definition loads_object (saved : option text) : Prop :=
  match saved with
  | Some t =>
      match parse t with
      | Some (JObj _) | None => True
      | Some _ => False
      end
  | None => True
  end.

(** What a response stores: its body when it is ok and JSON, the sentinel
    otherwise. *)
Definition stored_value (r : response json) : json :=
  match r with
  | Resolved true _ (Json data) => data
  | _ => JNull
  end.

(** [fetchAndCacheProfile] after its [await]s, with the throws of its own
    statements.  In the [try] block [JSON.stringify] (a value nested too
    deeply for the engine) and [localStorage.setItem] (a text over the
    quota) can throw after the body was read; the [catch] block then runs
    as for a failed request, and its [setProfileCache] is the one that
    lasts.  [writable c] says that the text of the cache [c] is made and
    stored without a throw; when the write of the [catch] block throws
    too, the storage keeps what it had. *)
Definition fetchAndCacheProfile_settle (writable : json -> bool)
  (captured : json) (patientName : jsstring) (r : response json)
  (st : App.state) : App.state :=
  let errorCache := JObj (set (App.spread captured) patientName JNull) in
  let caught :=
    App.mkState (App.selectedPatient st) errorCache
      (if writable errorCache then Some (stringify errorCache)
       else App.storage st)
      (App.inflight st) in
  match r with
  | Resolved true _ (Json data) =>
      let updatedCache :=
        JObj (set (App.spread captured) patientName data) in
      if writable updatedCache
      then App.mkState (App.selectedPatient st) updatedCache
             (Some (stringify updatedCache)) (App.inflight st)
      else caught
  | Resolved true _ (NotJson _) | Resolved false _ _ | Rejected _ => caught
  end.

(** The [try] block runs to its end: the response is ok and JSON, and the
    cache with its body is written without a throw. *)
Definition commits (writable : json -> bool) (captured : json)
  (patientName : jsstring) (r : response json) : bool :=
  match r with
  | Resolved true _ (Json data) =>
      writable (JObj (set (App.spread captured) patientName data))
  | _ => false
  end.

(** [l1] is [l2] with some of its elements left out. *)
Inductive subsequence (A : Type) : list A -> list A -> Prop :=
| sub_nil : subsequence [] []
| sub_skip x l1 l2 : subsequence l1 l2 -> subsequence l1 (x :: l2)
| sub_keep x l1 l2 : subsequence l1 l2 -> subsequence (x :: l1) (x :: l2).

End Notions.

(** * Properties *)

(** ** Objects as insertion-ordered property lists *)

Module ObjectFacts.
Import JS.

Lemma own_set_same (A : Type) (m : list (jsstring * A)) k v :
  own (set m k v) k = Some v.
Proof.
  induction m as [|[k' v'] t IH]; simpl.
  - destruct (jsstring_eq_dec k k); congruence.
  - destruct (jsstring_eq_dec k k') as [e|n]; simpl.
    + destruct (jsstring_eq_dec k k'); congruence.
    + destruct (jsstring_eq_dec k k'); [contradiction|exact IH].
Qed.

Lemma own_set_other (A : Type) (m : list (jsstring * A)) k k' v :
  k' <> k -> own (set m k v) k' = own m k'.
Proof.
  intros Hne. induction m as [|[k0 v0] t IH]; simpl.
  - destruct (jsstring_eq_dec k' k); congruence.
  - destruct (jsstring_eq_dec k k0) as [e|n]; simpl.
    + subst k0. destruct (jsstring_eq_dec k' k); congruence.
    + destruct (jsstring_eq_dec k' k0); [reflexivity|exact IH].
Qed.

Lemma own_In (A : Type) (m : list (jsstring * A)) k v :
  own m k = Some v -> In (k, v) m.
Proof.
  induction m as [|[k' v'] t IH]; simpl; [discriminate|].
  destruct (jsstring_eq_dec k k') as [e|n].
  - intros H. inversion H. subst. now left.
  - intros H. right. now apply IH.
Qed.

Lemma own_None_keys (A : Type) (m : list (jsstring * A)) k :
  own m k = None <-> ~ In k (map fst m).
Proof.
  induction m as [|[k' v'] t IH]; simpl.
  - tauto.
  - destruct (jsstring_eq_dec k k') as [e|n].
    + split; [discriminate|]. intros H. exfalso. apply H. now left.
    + rewrite IH. split.
      * intros H [E|E]; [congruence|contradiction].
      * intros H E. apply H. now right.
Qed.

(** Setting a property the object does not have appends it. *)
Lemma set_fresh (A : Type) (m : list (jsstring * A)) k v :
  own m k = None -> set m k v = m ++ [(k, v)].
Proof.
  induction m as [|[k' v'] t IH]; simpl; [reflexivity|].
  destruct (jsstring_eq_dec k k'); [discriminate|].
  intros H. now rewrite IH.
Qed.

(** Setting a property never changes the keys already there. *)
Lemma keys_set (A : Type) (m : list (jsstring * A)) k v :
  map fst (set m k v) =
  match own m k with
  | Some _ => map fst m
  | None => map fst m ++ [k]
  end.
Proof.
  induction m as [|[k' v'] t IH]; simpl; [reflexivity|].
  destruct (jsstring_eq_dec k k'); simpl; [reflexivity|].
  rewrite IH. now destruct (own t k).
Qed.

Lemma eqb_str_true a b : eqb_str a b = true <-> a = b.
Proof.
  unfold eqb_str. destruct (jsstring_eq_dec a b); split; congruence.
Qed.

Lemma eqb_str_refl a : eqb_str a a = true.
Proof. now apply eqb_str_true. Qed.

End ObjectFacts.

(** ** JSON text *)

Module JSONFacts.
Import JS JSON Words.

(** *** Strings *)

Lemma hex_value_digit d : (d < 16)%N -> hex_value (hex_digit d) = Some d.
Proof.
  intros H. unfold hex_digit, hex_value, is_digit.
  destruct (N.ltb_spec d 10).
  - replace ((48 <=? 48 + d) && (48 + d <=? 57))%N with true.
    + f_equal. lia.
    + symmetry. apply andb_true_iff. split; apply N.leb_le; lia.
  - replace ((48 <=? 87 + d) && (87 + d <=? 57))%N with false.
    + replace ((97 <=? 87 + d) && (87 + d <=? 102))%N with true.
      * f_equal. lia.
      * symmetry. apply andb_true_iff. split; apply N.leb_le; lia.
    + symmetry. apply andb_false_iff. right. apply N.leb_gt. lia.
Qed.

Lemma hex4_uescape c :
  (c < 65536)%N ->
  hex4 (hex_digit (c / 4096)) (hex_digit ((c / 256) mod 16))
       (hex_digit ((c / 16) mod 16)) (hex_digit (c mod 16)) = Some c.
Proof.
  intros H. unfold hex4.
  rewrite !hex_value_digit.
  - f_equal.
    pose proof (N.div_mod c 16 ltac:(lia)) as E0.
    pose proof (N.div_mod (c / 16) 16 ltac:(lia)) as E1.
    pose proof (N.div_mod (c / 256) 16 ltac:(lia)) as E2.
    rewrite (N.Div0.div_div c 16 16) in E1.
    rewrite (N.Div0.div_div c 256 16) in E2.
    change (16 * 16)%N with 256%N in E1.
    change (256 * 16)%N with 4096%N in E2.
    lia.
  - apply N.mod_lt; lia.
  - apply N.mod_lt; lia.
  - apply N.mod_lt; lia.
  - apply N.Div0.div_lt_upper_bound. lia.
Qed.

Lemma parse_uescape c t :
  (c < 65536)%N ->
  parse_string_body (uescape c ++ t) = cons_fst c (parse_string_body t).
Proof.
  intros H. unfold uescape. cbn [app parse_string_body].
  change (92 =? 34)%N with false. change (92 =? 92)%N with true.
  cbn iota. change (simple_escape 117) with (@None N).
  change (117 =? 117)%N with true. cbn iota.
  now rewrite hex4_uescape.
Qed.

Lemma parse_plain c t :
  c <> 34%N -> c <> 92%N -> (32 <= c)%N ->
  parse_string_body (c :: t) = cons_fst c (parse_string_body t).
Proof.
  intros H1 H2 H3. cbn [parse_string_body].
  apply N.eqb_neq in H1, H2. rewrite H1, H2.
  replace (c <? 32)%N with false; [reflexivity|].
  symmetry. apply N.ltb_ge. exact H3.
Qed.

Lemma parse_escape_unit c t :
  (c < 65536)%N ->
  parse_string_body (escape_unit c ++ t) = cons_fst c (parse_string_body t).
Proof.
  intros H. unfold escape_unit.
  repeat match goal with
  | |- context [if (c =? ?k)%N then _ else _] =>
      destruct (N.eqb_spec c k); [subst c; reflexivity|]
  end.
  destruct (N.ltb_spec c 32); [now apply parse_uescape|].
  destruct (is_low c); [now apply parse_uescape|].
  now apply parse_plain.
Qed.

Lemma high_plain c : is_high c = true -> c <> 34%N /\ c <> 92%N /\ (32 <= c)%N.
Proof.
  unfold is_high. intros H. apply andb_true_iff in H. destruct H as [H _].
  apply N.leb_le in H. lia.
Qed.

Lemma low_plain c : is_low c = true -> c <> 34%N /\ c <> 92%N /\ (32 <= c)%N.
Proof.
  unfold is_low. intros H. apply andb_true_iff in H. destruct H as [H _].
  apply N.leb_le in H. lia.
Qed.

Lemma unit_ok_lt c : unit_ok c = true -> (c < 65536)%N.
Proof. unfold unit_ok. apply N.ltb_lt. Qed.

(** Reading back a quoted string gives the string, whatever follows the
    closing quote. *)
Lemma parse_quote_units n : forall s rest,
  List.length s <= n -> str_ok s = true ->
  parse_string_body (quote_units s ++ 34%N :: rest) = Some (s, rest).
Proof.
  induction n as [|n IH]; intros s rest Hl Hok.
  - destruct s; [reflexivity|simpl in Hl; lia].
  - destruct s as [|c t]; [reflexivity|].
    simpl in Hl, Hok. apply andb_true_iff in Hok. destruct Hok as [Hc Ht].
    apply unit_ok_lt in Hc. cbn [quote_units].
    destruct (is_high c) eqn:Eh.
    + destruct t as [|d t'].
      * rewrite parse_uescape by exact Hc. reflexivity.
      * destruct (is_low d) eqn:El.
        -- simpl in Ht. apply andb_true_iff in Ht. destruct Ht as [_ Ht].
           destruct (high_plain _ Eh) as [A [B C]].
           destruct (low_plain _ El) as [A' [B' C']].
           cbn [app]. rewrite parse_plain by assumption.
           rewrite parse_plain by assumption.
           rewrite IH; [reflexivity| simpl in Hl; lia | exact Ht].
        -- rewrite <- app_assoc, parse_uescape by exact Hc.
           rewrite IH; [reflexivity| lia | exact Ht].
    + rewrite <- app_assoc, parse_escape_unit by exact Hc.
      rewrite IH; [reflexivity| lia | exact Ht].
Qed.

Lemma parse_quote s rest :
  str_ok s = true ->
  parse_string_body (quote_units s ++ 34%N :: rest) = Some (s, rest).
Proof. intros H. now apply parse_quote_units with (n := List.length s). Qed.

(** *** Values *)

Section JsonInduction.

Variable P : json -> Prop.
Hypothesis Hnull : P JNull.
Hypothesis Hbool : forall b, P (JBool b).
Hypothesis Hnum : forall l, P (JNum l).
Hypothesis Hstr : forall s, P (JStr s).
Hypothesis Harr : forall l, Forall P l -> P (JArr l).
Hypothesis Hobj : forall m, Forall (fun kv => P (snd kv)) m -> P (JObj m).

Fixpoint json_nested_ind (v : json) : P v :=
  match v with
  | JNull => Hnull
  | JBool b => Hbool b
  | JNum l => Hnum l
  | JStr s => Hstr s
  | JArr l =>
      Harr
        ((fix go (l : list json) : Forall P l :=
            match l with
            | [] => Forall_nil P
            | x :: t => Forall_cons x (json_nested_ind x) (go t)
            end) l)
  | JObj m =>
      Hobj
        ((fix go (m : object) : Forall (fun kv => P (snd kv)) m :=
            match m with
            | [] => Forall_nil _
            | (k, x) :: t =>
                Forall_cons (P := fun kv => P (snd kv)) (k, x)
                  (json_nested_ind x) (go t)
            end) m)
  end.

End JsonInduction.

Lemma stringify_arr l rest :
  stringify (JArr l) ++ rest
  = 91%N :: join (map stringify l) ++ 93%N :: rest.
Proof. cbn [stringify]. now rewrite <- app_assoc. Qed.

Lemma stringify_obj m rest :
  stringify (JObj m) ++ rest = 123%N :: join (map member m) ++ 125%N :: rest.
Proof. cbn [stringify]. now rewrite <- app_assoc. Qed.

Lemma member_app k v rest :
  member (k, v) ++ rest
  = 34%N :: quote_units k ++ 34%N :: 58%N :: stringify v ++ rest.
Proof.
  unfold member, quote. cbn [fst snd app].
  now rewrite <- !app_assoc.
Qed.

(** The text of a storable value starts with a character that is neither
    white space nor a closing bracket. *)
Lemma stringify_head v :
  storable v = true ->
  exists c t, stringify v = c :: t
              /\ is_json_ws c = false /\ (c =? 93)%N = false.
Proof.
  destruct v as [|[]| | | |]; simpl; intros H; try discriminate;
    do 2 eexists; (split; [reflexivity|split; reflexivity]).
Qed.

Lemma skip_ws_head c t : is_json_ws c = false -> skip_ws (c :: t) = c :: t.
Proof. intros H. simpl. now rewrite H. Qed.

Lemma parse_value_S n s :
  parse_value (S n) s =
  match skip_ws s with
  | [] => SyntaxError
  | c :: t =>
      if (c =? 123)%N then
        match expect 125 (skip_ws t) with
        | Some r => Ok (JObj [], r)
        | None => parse_members n [] t
        end
      else if (c =? 91)%N then
        match expect 93 (skip_ws t) with
        | Some r => Ok (JArr [], r)
        | None => parse_elements n [] t
        end
      else if (c =? 34)%N then
        match parse_string_body t with
        | Some (u, r) => Ok (JStr u, r)
        | None => SyntaxError
        end
      else if (c =? 116)%N then
        match strip_prefix (lit "rue") t with
        | Some r => Ok (JBool true, r)
        | None => SyntaxError
        end
      else if (c =? 102)%N then
        match strip_prefix (lit "alse") t with
        | Some r => Ok (JBool false, r)
        | None => SyntaxError
        end
      else if (c =? 110)%N then
        match strip_prefix (lit "ull") t with
        | Some r => Ok (JNull, r)
        | None => SyntaxError
        end
      else
        match parse_number (c :: t) with
        | Some (l, r) => Ok (JNum l, r)
        | None => SyntaxError
        end
  end.
Proof. reflexivity. Qed.

Lemma parse_members_S n acc s :
  parse_members (S n) acc s =
  match expect 34 (skip_ws s) with
  | None => SyntaxError
  | Some s1 =>
      match parse_string_body s1 with
      | None => SyntaxError
      | Some (k, s2) =>
          match expect 58 (skip_ws s2) with
          | None => SyntaxError
          | Some s3 =>
              match parse_value n s3 with
              | Ok (v, s4) =>
                  match expect 44 (skip_ws s4) with
                  | Some s5 => parse_members n (set acc k v) s5
                  | None =>
                      match expect 125 (skip_ws s4) with
                      | Some s5 => Ok (JObj (set acc k v), s5)
                      | None => SyntaxError
                      end
                  end
              | SyntaxError => SyntaxError
              | OutOfFuel => OutOfFuel
              end
          end
      end
  end.
Proof. reflexivity. Qed.

Lemma parse_elements_S n acc s :
  parse_elements (S n) acc s =
  match parse_value n s with
  | Ok (v, s1) =>
      match expect 44 (skip_ws s1) with
      | Some s2 => parse_elements n (acc ++ [v]) s2
      | None =>
          match expect 93 (skip_ws s1) with
          | Some s2 => Ok (JArr (acc ++ [v]), s2)
          | None => SyntaxError
          end
      end
  | SyntaxError => SyntaxError
  | OutOfFuel => OutOfFuel
  end.
Proof. reflexivity. Qed.

Lemma expect_skip c t :
  is_json_ws c = false -> expect c (skip_ws (c :: t)) = Some t.
Proof.
  intros H. rewrite skip_ws_head by exact H. simpl. now rewrite N.eqb_refl.
Qed.

Lemma expect_miss c d t :
  is_json_ws d = false -> (d =? c)%N = false ->
  expect c (skip_ws (d :: t)) = None.
Proof.
  intros H E. rewrite skip_ws_head by exact H. simpl. now rewrite E.
Qed.

Lemma distinct_own (A : Type) (acc : list (jsstring * A)) k v t :
  distinct (map fst (acc ++ (k, v) :: t)) = true -> own acc k = None.
Proof.
  induction acc as [|[k0 v0] acc IH]; simpl; [reflexivity|].
  intros H. apply andb_true_iff in H. destruct H as [H1 H2].
  destruct (jsstring_eq_dec k k0) as [->|Hne]; [|now apply IH].
  exfalso. apply negb_true_iff in H1.
  assert (existsb (eqb_str k0) (map fst (acc ++ (k0, v) :: t)) = true);
    [|congruence].
  apply existsb_exists. exists k0. split.
  - rewrite map_app, in_app_iff. right. now left.
  - apply ObjectFacts.eqb_str_refl.
Qed.

Lemma read_elements l :
  Forall reads l -> l <> [] ->
  forall acc fuel rest,
    list_sum (map (fun x => S (weight x)) l) <= fuel ->
    parse_elements fuel acc (join (map stringify l) ++ 93%N :: rest)
    = Ok (JArr (acc ++ l), rest).
Proof.
  induction l as [|x t IH]; intros HF Hne acc fuel rest Hf; [congruence|].
  inversion HF as [|? ? Hx Ht]; subst. cbn [map list_sum] in Hf.
  destruct fuel as [|n]; [simpl in Hf; lia|]. rewrite parse_elements_S.
  destruct t as [|y t'].
  - cbn [map join]. rewrite (Hx n (93%N :: rest)) by (simpl in Hf; lia).
    rewrite expect_miss by reflexivity. now rewrite expect_skip.
  - change (join (map stringify (x :: y :: t')))
      with (stringify x ++ 44%N :: join (map stringify (y :: t'))).
    rewrite <- app_assoc. cbn [app].
    rewrite Hx by (simpl in Hf; lia).
    rewrite expect_skip by reflexivity.
    rewrite IH; [|exact Ht|discriminate|simpl in *; lia].
    now rewrite <- app_assoc.
Qed.

Lemma read_members m :
  Forall (fun kv => reads (snd kv)) m -> m <> [] ->
  forallb (fun kv => str_ok (fst kv)) m = true ->
  forall acc fuel rest,
    distinct (map fst (acc ++ m)) = true ->
    list_sum (map (fun kv => S (weight (snd kv))) m) <= fuel ->
    parse_members fuel acc (join (map member m) ++ 125%N :: rest)
    = Ok (JObj (acc ++ m), rest).
Proof.
  induction m as [|[k v] t IH]; intros HF Hne Hk acc fuel rest Hd Hf;
    [congruence|].
  inversion HF as [|? ? Hv Ht]; subst. cbn [snd] in Hv.
  cbn [map list_sum snd] in Hf.
  cbn [forallb fst] in Hk. apply andb_true_iff in Hk. destruct Hk as [Hk Hkt].
  destruct fuel as [|n]; [simpl in Hf; lia|]. rewrite parse_members_S.
  pose proof (distinct_own _ _ _ _ Hd) as Ho.
  destruct t as [|kv t'].
  - cbn [map join]. rewrite member_app.
    rewrite expect_skip by reflexivity.
    rewrite parse_quote by exact Hk.
    rewrite expect_skip by reflexivity.
    rewrite (Hv n (125%N :: rest)) by (simpl in Hf; lia).
    rewrite expect_miss by reflexivity. rewrite expect_skip by reflexivity.
    now rewrite ObjectFacts.set_fresh.
  - change (join (map member ((k, v) :: kv :: t')))
      with (member (k, v) ++ 44%N :: join (map member (kv :: t'))).
    rewrite <- app_assoc, member_app. cbn [app].
    rewrite expect_skip by reflexivity.
    rewrite parse_quote by exact Hk.
    rewrite expect_skip by reflexivity.
    rewrite Hv by (simpl in Hf; lia).
    rewrite expect_skip by reflexivity.
    rewrite ObjectFacts.set_fresh by exact Ho.
    rewrite IH; [|exact Ht|discriminate|exact Hkt| |simpl in *; lia].
    + now rewrite <- app_assoc.
    + now rewrite <- app_assoc.
Qed.

Lemma forallb_fst_snd (f : jsstring -> bool) (g : json -> bool) m :
  forallb (fun kv : jsstring * json => f (fst kv) && g (snd kv)) m = true ->
  forallb (fun kv => f (fst kv)) m = true
  /\ forallb (fun kv => g (snd kv)) m = true.
Proof.
  induction m as [|kv t IH]; simpl; [tauto|].
  intros H. apply andb_true_iff in H. destruct H as [H1 H2].
  apply andb_true_iff in H1. destruct H1 as [Hf Hg].
  destruct (IH H2) as [A B]. now rewrite Hf, Hg, A, B.
Qed.

(** Every storable value is read back from its text. *)
Lemma storable_reads v : storable v = true -> reads v.
Proof.
  induction v as [|b|l|s|l IH|m IH] using json_nested_ind;
    intros Hs fuel rest Hf;
    (destruct fuel as [|n]; [simpl in Hf; lia|]).
  - reflexivity.
  - destruct b; reflexivity.
  - discriminate.
  - cbn [storable] in Hs. cbn [stringify]. unfold quote.
    rewrite <- app_assoc. cbn [app]. rewrite parse_value_S.
    rewrite skip_ws_head by reflexivity.
    change (34 =? 123)%N with false. change (34 =? 91)%N with false.
    change (34 =? 34)%N with true. cbn iota.
    now rewrite parse_quote.
  - cbn [storable] in Hs. rewrite stringify_arr, parse_value_S.
    rewrite skip_ws_head by reflexivity.
    change (91 =? 123)%N with false. change (91 =? 91)%N with true.
    cbn iota.
    destruct l as [|x t]; [reflexivity|].
    assert (HF : Forall reads (x :: t)).
    { rewrite forallb_forall in Hs. rewrite Forall_forall in IH |- *.
      intros y Hy. apply IH; [exact Hy|]. now apply Hs. }
    assert (E : expect 93
                  (skip_ws (join (map stringify (x :: t)) ++ 93%N :: rest))
                = None).
    { simpl in Hs. apply andb_true_iff in Hs. destruct Hs as [Hx _].
      destruct (stringify_head _ Hx) as [c [u [Ec [Hw Hc]]]].
      cbn [map]. destruct (map stringify t); cbn [join]; rewrite Ec;
        cbn [app]; now apply expect_miss. }
    rewrite E. change (x :: t) with ([] ++ x :: t) at 2.
    apply read_elements; [exact HF|discriminate|].
    cbn [weight] in Hf. lia.
  - cbn [storable] in Hs. apply andb_true_iff in Hs.
    destruct Hs as [Hd Hs]. apply forallb_fst_snd in Hs.
    destruct Hs as [Hk Hv].
    rewrite stringify_obj, parse_value_S.
    rewrite skip_ws_head by reflexivity.
    change (123 =? 123)%N with true. cbn iota.
    destruct m as [|[k v] t]; [reflexivity|].
    assert (HF : Forall (fun kv => reads (snd kv)) ((k, v) :: t)).
    { rewrite forallb_forall in Hv. rewrite Forall_forall in IH |- *.
      intros y Hy. apply IH; [exact Hy|]. now apply Hv. }
    assert (E : expect 125
                  (skip_ws (join (map member ((k, v) :: t)) ++ 125%N :: rest))
                = None).
    { cbn [map]. destruct (map member t); cbn [join];
        [|rewrite <- app_assoc]; rewrite member_app; now apply expect_miss. }
    rewrite E. change ((k, v) :: t) with ([] ++ (k, v) :: t) at 2.
    apply read_members; [exact HF|discriminate|exact Hk|exact Hd|].
    cbn [weight] in Hf. lia.
Qed.

Lemma join_length (xs : list text) :
  list_sum (map (fun x => S (List.length x)) xs) <= S (List.length (join xs)).
Proof.
  induction xs as [|x t IH]; [simpl; lia|].
  destruct t as [|y t'].
  - simpl. lia.
  - change (join (x :: y :: t')) with (x ++ 44%N :: join (y :: t')).
    cbn [map] in *. unfold list_sum in *. cbn [fold_right] in *.
    rewrite length_app. cbn [List.length]. lia.
Qed.

Lemma list_sum_le (A : Type) (f g : A -> nat) l :
  Forall (fun x => f x <= g x) l ->
  list_sum (map f l) <= list_sum (map g l).
Proof. induction 1; simpl; lia. Qed.

Lemma weight_le_length v :
  storable v = true -> weight v <= List.length (stringify v).
Proof.
  induction v as [|b|l|s|l IH|m IH] using json_nested_ind; intros Hs.
  - simpl. lia.
  - destruct b; simpl; lia.
  - discriminate.
  - cbn [stringify weight]. unfold quote. rewrite length_app. simpl. lia.
  - cbn [storable] in Hs. cbn [stringify weight].
    rewrite length_app. cbn [List.length].
    pose proof (join_length (map stringify l)) as J. rewrite map_map in J.
    assert (list_sum (map (fun x => S (weight x)) l)
            <= list_sum (map (fun x => S (List.length (stringify x))) l)).
    { apply list_sum_le. rewrite forallb_forall in Hs.
      rewrite Forall_forall in IH |- *. intros x Hx.
      specialize (IH x Hx (Hs x Hx)). lia. }
    lia.
  - cbn [storable] in Hs. apply andb_true_iff in Hs. destruct Hs as [_ Hs].
    apply forallb_fst_snd in Hs. destruct Hs as [_ Hv].
    cbn [stringify weight]. rewrite length_app. cbn [List.length].
    pose proof (join_length (map member m)) as J. rewrite map_map in J.
    assert (list_sum (map (fun kv => S (weight (snd kv))) m)
            <= list_sum (map (fun kv => S (List.length (member kv))) m)).
    { apply list_sum_le. rewrite forallb_forall in Hv.
      rewrite Forall_forall in IH |- *. intros x Hx.
      specialize (IH x Hx (Hv x Hx)). unfold member.
      rewrite length_app. cbn [List.length]. lia. }
    change (map (fun kv => quote (fst kv) ++ 58%N :: stringify (snd kv)) m)
      with (map member m).
    lia.
Qed.

(** [JSON.parse(JSON.stringify(v))] is [v] for every storable value. *)
Lemma parse_stringify v : storable v = true -> parse (stringify v) = Some v.
Proof.
  intros Hs. unfold parse.
  pose proof (weight_le_length v Hs) as W.
  rewrite <- (app_nil_r (stringify v)) at 2.
  rewrite (storable_reads v Hs); [reflexivity|lia].
Qed.

(** *** The recursion budget of the parser *)

Lemma skip_ws_length s : List.length (skip_ws s) <= List.length s.
Proof.
  induction s as [|c t IH]; simpl; [lia|].
  destruct (is_json_ws c); simpl; lia.
Qed.

Lemma expect_length c s t :
  expect c s = Some t -> List.length s = S (List.length t).
Proof.
  destruct s as [|x u]; simpl; [discriminate|].
  destruct (x =? c)%N; [|discriminate]. now intros [= ->].
Qed.

Lemma cons_fst_Some c o u r :
  cons_fst c o = Some (u, r) -> exists u', o = Some (u', r).
Proof.
  destruct o as [[u' r']|]; simpl; [|discriminate].
  intros [= _ ->]. eauto.
Qed.

Lemma parse_string_body_length n : forall s u r,
  List.length s <= n ->
  parse_string_body s = Some (u, r) -> List.length r < List.length s.
Proof.
  induction n as [|n IH]; intros s u r Hl H.
  - destruct s; [discriminate|simpl in Hl; lia].
  - destruct s as [|c t]; [discriminate|]. cbn [parse_string_body] in H.
    simpl in Hl. cbn [List.length].
    destruct (c =? 34)%N; [injection H as _ ->; lia|].
    destruct (c =? 92)%N.
    + destruct t as [|e t1]; [discriminate|].
      cbn [List.length] in *.
      destruct (simple_escape e).
      * apply cons_fst_Some in H. destruct H as [u' H].
        apply IH in H; lia.
      * destruct (e =? 117)%N; [|discriminate].
        destruct t1 as [|h1 [|h2 [|h3 [|h4 t2]]]]; try discriminate.
        destruct (hex4 h1 h2 h3 h4); [|discriminate].
        apply cons_fst_Some in H. destruct H as [u' H].
        cbn [List.length] in *. apply IH in H; lia.
    + destruct (c <? 32)%N; [discriminate|].
      apply cons_fst_Some in H. destruct H as [u' H]. apply IH in H; lia.
Qed.

Lemma strip_prefix_length w : forall s r,
  strip_prefix w s = Some r -> List.length r <= List.length s.
Proof.
  induction w as [|a w IH]; intros s r H; simpl in H.
  - injection H as ->. lia.
  - destruct s as [|b s']; [discriminate|].
    destruct (a =? b)%N; [|discriminate]. apply IH in H. simpl. lia.
Qed.

Lemma digits_length s : List.length (snd (digits s)) <= List.length s.
Proof.
  induction s as [|c t IH]; simpl; [lia|].
  destruct (is_digit c); [|simpl; lia].
  destruct (digits t). simpl in *. lia.
Qed.

Lemma digits1_length s d r :
  digits1 s = Some (d, r) -> List.length r <= List.length s.
Proof.
  unfold digits1. pose proof (digits_length s) as L.
  destruct (digits s) as [[|x d'] r']; [discriminate|].
  intros [= _ <-]. exact L.
Qed.

Lemma int_part_length s i r :
  int_part s = Some (i, r) -> List.length r < List.length s.
Proof.
  destruct s as [|c t]; simpl; [discriminate|].
  destruct (c =? 48)%N; [intros [= _ <-]; lia|].
  destruct (is_digit c); [|discriminate].
  pose proof (digits_length t) as L. destruct (digits t) as [d r'].
  intros [= _ <-]. simpl in L. lia.
Qed.

Lemma frac_part_length s f r :
  frac_part s = Some (f, r) -> List.length r <= List.length s.
Proof.
  destruct s as [|c t]; simpl; [intros [= _ <-]; simpl; lia|].
  destruct (c =? 46)%N; [|intros [= _ <-]; simpl; lia].
  intros H. apply cons_fst_Some in H. destruct H as [u H].
  apply digits1_length in H. lia.
Qed.

Lemma exp_part_length s e r :
  exp_part s = Some (e, r) -> List.length r <= List.length s.
Proof.
  destruct s as [|c t]; simpl; [intros [= _ <-]; simpl; lia|].
  destruct ((c =? 101) || (c =? 69))%N; [|intros [= _ <-]; simpl; lia].
  destruct t as [|g t1]; [discriminate|].
  destruct ((g =? 43) || (g =? 45))%N; intros H.
  - apply cons_fst_Some in H. destruct H as [u H].
    apply cons_fst_Some in H. destruct H as [u' H].
    apply digits1_length in H. simpl. lia.
  - apply cons_fst_Some in H. destruct H as [u H].
    apply digits1_length in H. lia.
Qed.

Lemma parse_number_length s l r :
  parse_number s = Some (l, r) -> List.length r < List.length s.
Proof.
  unfold parse_number.
  set (p := match s with
            | [] => ([], s)
            | c :: t => if (c =? 45)%N then ([c], t) else ([], s)
            end).
  assert (Hp : List.length (snd p) <= List.length s).
  { subst p. destruct s as [|c t]; [simpl; lia|].
    destruct (c =? 45)%N; simpl; lia. }
  destruct p as [sign s0]. simpl in Hp.
  destruct (int_part s0) as [[i s1]|] eqn:Ei; [|discriminate].
  destruct (frac_part s1) as [[f s2]|] eqn:Ef; [|discriminate].
  destruct (exp_part s2) as [[e s3]|] eqn:Ee; [|discriminate].
  intros [= _ <-].
  apply int_part_length in Ei. apply frac_part_length in Ef.
  apply exp_part_length in Ee. lia.
Qed.

Lemma progress_le (A : Type) (r : res (A * text)) s s' :
  progress r s -> List.length s <= List.length s' -> progress r s'.
Proof. destruct r as [[a rest]| |]; simpl; trivial. lia. Qed.

Lemma progress_opt (A B : Type) (o : option (A * text)) (f : A -> B) s :
  (forall a r, o = Some (a, r) -> List.length r < List.length s) ->
  progress match o with
           | Some (a, r) => Ok (f a, r)
           | None => SyntaxError
           end s.
Proof.
  destruct o as [[a r]|]; simpl; [|trivial]. intros H. exact (H a r eq_refl).
Qed.

(** With a budget above twice the length of the input the three parsers
    end, and what they leave is shorter than what they were given. *)
Lemma parse_progress fuel :
  (forall s, 2 * List.length s < fuel -> progress (parse_value fuel s) s)
  /\ (forall acc s,
        2 * List.length s < fuel -> progress (parse_members fuel acc s) s)
  /\ (forall acc s,
        2 * List.length s + 1 < fuel ->
        progress (parse_elements fuel acc s) s).
Proof.
  induction fuel as [|n [IHv [IHm IHe]]]; [repeat split; intros; lia|].
  split; [|split].
  - intros s H. rewrite parse_value_S.
    pose proof (skip_ws_length s) as Ls.
    destruct (skip_ws s) as [|c t]; [exact I|]. cbn [List.length] in Ls.
    pose proof (skip_ws_length t) as Lt.
    destruct (c =? 123)%N.
    { destruct (expect 125 (skip_ws t)) as [r|] eqn:E.
      - apply expect_length in E. simpl. lia.
      - apply progress_le with (s := t); [apply IHm|]; lia. }
    destruct (c =? 91)%N.
    { destruct (expect 93 (skip_ws t)) as [r|] eqn:E.
      - apply expect_length in E. simpl. lia.
      - apply progress_le with (s := t); [apply IHe|]; lia. }
    destruct (c =? 34)%N.
    { apply progress_opt. intros a r E.
      apply parse_string_body_length with (n := List.length t) in E; lia. }
    destruct (c =? 116)%N.
    { destruct (strip_prefix (lit "rue") t) eqn:E'; [|exact I].
      apply strip_prefix_length in E'. simpl. lia. }
    destruct (c =? 102)%N.
    { destruct (strip_prefix (lit "alse") t) eqn:E'; [|exact I].
      apply strip_prefix_length in E'. simpl. lia. }
    destruct (c =? 110)%N.
    { destruct (strip_prefix (lit "ull") t) eqn:E'; [|exact I].
      apply strip_prefix_length in E'. simpl. lia. }
    apply progress_opt. intros a r E. apply parse_number_length in E.
    cbn [List.length] in E. lia.
  - intros acc s H. rewrite parse_members_S.
    pose proof (skip_ws_length s) as Ls.
    destruct (expect 34 (skip_ws s)) as [s1|] eqn:E1; [|exact I].
    apply expect_length in E1.
    destruct (parse_string_body s1) as [[k s2]|] eqn:E2; [|exact I].
    apply parse_string_body_length with (n := List.length s1) in E2;
      [|lia].
    pose proof (skip_ws_length s2) as L2.
    destruct (expect 58 (skip_ws s2)) as [s3|] eqn:E3; [|exact I].
    apply expect_length in E3.
    assert (Hv : progress (parse_value n s3) s3) by (apply IHv; lia).
    destruct (parse_value n s3) as [[v s4]| |]; [|exact I|exact Hv].
    simpl in Hv. pose proof (skip_ws_length s4) as L4.
    destruct (expect 44 (skip_ws s4)) as [s5|] eqn:E5.
    + apply expect_length in E5.
      apply progress_le with (s := s5); [apply IHm|]; lia.
    + destruct (expect 125 (skip_ws s4)) as [s5|] eqn:E6; [|exact I].
      apply expect_length in E6. simpl. lia.
  - intros acc s H. rewrite parse_elements_S.
    assert (Hv : progress (parse_value n s) s) by (apply IHv; lia).
    destruct (parse_value n s) as [[v s1]| |]; [|exact I|exact Hv].
    simpl in Hv. pose proof (skip_ws_length s1) as L1.
    destruct (expect 44 (skip_ws s1)) as [s2|] eqn:E2.
    + apply expect_length in E2.
      apply progress_le with (s := s2); [apply IHe|]; lia.
    + destruct (expect 93 (skip_ws s1)) as [s2|] eqn:E3; [|exact I].
      apply expect_length in E3. simpl. lia.
Qed.

(** The budget [parse] gives is never exhausted: [parse s = None] means
    that the text is not JSON. *)
Lemma parse_never_out_of_fuel s :
  parse_value (S (2 * List.length s)) s <> OutOfFuel.
Proof.
  destruct (parse_progress (S (2 * List.length s))) as [H _].
  specialize (H s ltac:(lia)). intros E. rewrite E in H. exact H.
Qed.

End JSONFacts.

(** ** The profile cache and patient selection *)

Module AppSpec.
Import JS JSON Gateway App Samples Words.

(** The guard of [handlePatientSelect] tests truthiness, and the sentinel
    [null] is falsy: an entry that records a failed fetch does not stop the
    next selection from fetching. *)
Lemma not_cached_sentinel m id :
  own m id = Some JNull -> not_cached (JObj m) id = Some true.
Proof. intros H. simpl. now rewrite H. Qed.

Lemma select_sentinel st m id :
  profileCache st = JObj m -> own m id = Some JNull ->
  exists st', handlePatientSelect id st = Some (st', [GetProfile id]).
Proof.
  intros Hc Ho. unfold handlePatientSelect.
  rewrite Hc, (not_cached_sentinel _ _ Ho). eauto.
Qed.

(** C1 (fails on the code): a patient is selected, the profile request
    fails and [null] is stored for it, the user goes back and selects the
    same patient again.  The cache holds the sentinel at that moment, and
    yet the second selection issues the profile request, and the summary
    request, once more. *)
Theorem reselect_after_failure_refetches :
  exists st,
    run [Select jane; ProfileResponse 0 (Rejected (lit "Failed to fetch")); Back]
        (initial None) = Some (st, [GetProfile jane; GetSummary jane])
    /\ profileCache st = JObj [(jane, JNull)]
    /\ inflight st = []
    /\ exists st', step (Select jane) st
                   = Some (st', [GetProfile jane; GetSummary jane]).
Proof.
  eexists. split; [vm_compute; reflexivity|].
  split; [reflexivity|]. split; [reflexivity|].
  eexists. vm_compute. reflexivity.
Qed.

(** C2 as stated is false: with the first profile request for a patient
    still waiting for its response, going back and selecting the patient
    again issues a second one. *)
Lemma reselect_in_flight_fetches_again :
  exists st1 st2,
    step (Select jane) (initial None)
      = Some (st1, [GetProfile jane; GetSummary jane])
    /\ inflight st1 = [(jane, JObj [])]
    /\ step (Select jane) (onBack st1)
      = Some (st2, [GetProfile jane; GetSummary jane])
    /\ inflight st2 = [(jane, JObj []); (jane, JObj [])].
Proof.
  do 2 eexists. split; [vm_compute; reflexivity|].
  split; [reflexivity|]. split; vm_compute; reflexivity.
Qed.

(** C2, amended: for a patient name that is not empty, has no lone
    surrogate and is not a name inherited from [Object.prototype], and that
    has no entry in the cache, a selection from the roster issues exactly
    one profile request and, through the detail view it mounts, exactly one
    summary request; the cache is left as it was, only the waiting call is
    recorded.  Going back and selecting again before the response arrives
    issues the same two requests again: the guard reads the cache alone. *)
Theorem select_uncached st m id :
  profileCache st = JObj m ->
  own m id = None ->
  inherited id = false ->
  id <> [] ->
  uri_ok id = true ->
  selectedPatient st = None ->
  exists st1,
    step (Select id) st = Some (st1, [GetProfile id; GetSummary id])
    /\ profileCache st1 = JObj m
    /\ inflight st1 = inflight st ++ [(id, JObj m)]
    /\ exists st2,
         step (Select id) (onBack st1)
           = Some (st2, [GetProfile id; GetSummary id])
         /\ inflight st2 = inflight st ++ [(id, JObj m); (id, JObj m)].
Proof.
  intros Hc Ho Hi Hne Hu Hs.
  assert (Hm : summary_on_mount id = [GetSummary id]).
  { unfold summary_on_mount. destruct id; [congruence|]. now rewrite Hu. }
  assert (Hn : not_cached (JObj m) id = Some true).
  { simpl. now rewrite Ho, Hi. }
  eexists. split.
  { unfold step, handlePatientSelect. rewrite Hs, Hc, Hn, Hm. reflexivity. }
  split; [reflexivity|]. split; [reflexivity|].
  eexists. split.
  { unfold step, handlePatientSelect, onBack. simpl.
    rewrite Ho, Hi, Hm. simpl. reflexivity. }
  simpl. rewrite <- app_assoc. reflexivity.
Qed.

Lemma select_uncached_witness :
  exists st1,
    step (Select jane) (initial None)
      = Some (st1, [GetProfile jane; GetSummary jane])
    /\ profileCache st1 = JObj []
    /\ inflight st1 = [] ++ [(jane, JObj [])]
    /\ exists st2,
         step (Select jane) (onBack st1)
           = Some (st2, [GetProfile jane; GetSummary jane])
         /\ inflight st2 = [] ++ [(jane, JObj []); (jane, JObj [])].
Proof.
  apply (@select_uncached (initial None) [] jane);
    try reflexivity; discriminate.
Defined.

(** C5 as stated is false: a stored payload that is JSON text and not a
    mapping is not parseable as the cache mapping, and yet the mount effect
    does not fall back to the empty mapping: the value [null], or an array,
    becomes the cache. *)
Lemma non_mapping_payload_kept :
  loadFromStorage (Some (lit "null")) = JNull
  /\ loadFromStorage (Some (lit "[1,2]"))
     = JArr [JNum (lit "1"); JNum (lit "2")]
  /\ loadFromStorage (Some (lit "null")) <> JObj []
  /\ loadFromStorage (Some (lit "[1,2]")) <> JObj [].
Proof. repeat split; try (vm_compute; reflexivity); vm_compute; discriminate. Qed.

(** C5, amended: a stored payload that [JSON.parse] rejects leaves the
    application in its initial state, with the empty mapping as its cache;
    the effect is a total function, so nothing escapes it.  A payload that
    [JSON.parse] accepts is not examined further: its value, mapping or
    not, becomes the cache. *)
Theorem loadFromStorage_malformed (payload : text) :
  (parse payload = None ->
   load_effect (initial (Some payload)) = initial (Some payload)
   /\ loadFromStorage (Some payload) = JObj [])
  /\ (forall v, parse payload = Some v -> loadFromStorage (Some payload) = v).
Proof.
  unfold loadFromStorage, load_effect. cbn [initial storage]. split.
  - intros Hp. destruct payload; [split; reflexivity|]. rewrite Hp.
    split; reflexivity.
  - intros v Hp. destruct payload; [discriminate|]. rewrite Hp. reflexivity.
Qed.

(** A payload that is JSON and not an object is not malformed: it becomes
    the cache. *)
Example load_null_payload : loadFromStorage (Some (lit "null")) = JNull.
Proof. vm_compute. reflexivity. Qed.

Lemma loadFromStorage_malformed_witness :
  load_effect (initial (Some (lit "{bad"))) = initial (Some (lit "{bad"))
  /\ loadFromStorage (Some (lit "{bad")) = JObj [].
Proof.
  apply (proj1 (@loadFromStorage_malformed (lit "{bad"))).
  vm_compute. reflexivity.
Defined.

(** *** Writing the cache and reading it back *)

Lemma existsb_eqb_In k l : existsb (eqb_str k) l = true <-> In k l.
Proof.
  rewrite existsb_exists. split.
  - intros [x [Hx E]]. apply ObjectFacts.eqb_str_true in E. now subst.
  - intros H. exists k. split; [exact H|apply ObjectFacts.eqb_str_refl].
Qed.

Lemma distinct_NoDup l : distinct l = true <-> NoDup l.
Proof.
  induction l as [|k t IH]; simpl.
  - split; [constructor|reflexivity].
  - rewrite andb_true_iff, negb_true_iff, IH. split.
    + intros [H1 H2]. constructor; [|exact H2].
      intros Hin. apply existsb_eqb_In in Hin. congruence.
    + intros H. inversion H as [|? ? Hn Hd]; subst. split; [|exact Hd].
      destruct (existsb (eqb_str k) t) eqn:E; [|reflexivity].
      apply existsb_eqb_In in E. contradiction.
Qed.

Lemma distinct_set (A : Type) (m : list (jsstring * A)) k v :
  distinct (map fst m) = true -> distinct (map fst (set m k v)) = true.
Proof.
  rewrite ObjectFacts.keys_set. destruct (own m k) eqn:E; [trivial|].
  rewrite !distinct_NoDup. intros H.
  apply ObjectFacts.own_None_keys in E.
  apply NoDup_app; [exact H|constructor; [intros []|constructor]|].
  intros x Hx [<-|[]]. contradiction.
Qed.

Lemma forallb_set (A : Type) (f : jsstring * A -> bool) m k v :
  forallb f m = true -> f (k, v) = true -> forallb f (set m k v) = true.
Proof.
  intros Hm Hk. induction m as [|[k' v'] t IH]; simpl in *.
  - now rewrite Hk.
  - apply andb_true_iff in Hm. destruct Hm as [H1 H2].
    destruct (jsstring_eq_dec k k') as [->|Hne]; simpl.
    + now rewrite Hk, H2.
    + now rewrite H1, IH.
Qed.

Lemma storable_set m k v :
  storable (JObj m) = true -> str_ok k = true -> storable v = true ->
  storable (JObj (set m k v)) = true.
Proof.
  cbn [storable]. intros H Hk Hv. apply andb_true_iff in H.
  destruct H as [Hd Hf]. apply andb_true_iff. split.
  - now apply distinct_set.
  - apply forallb_set; [exact Hf|]. cbn [fst snd]. now rewrite Hk, Hv.
Qed.

Lemma entry_storable e : entry_ok e = true -> storable (entry_value e) = true.
Proof.
  destruct e as [m l c|]; simpl; [|reflexivity].
  intros H. apply andb_true_iff in H. destruct H as [H Hc].
  apply andb_true_iff in H. destruct H as [Hm Hl].
  now rewrite Hm, Hl, Hc.
Qed.

(** Storage that holds the text of a storable mapping loads as it. *)
Lemma load_stringify m :
  storable (JObj m) = true ->
  loadFromStorage (Some (stringify (JObj m))) = JObj m.
Proof.
  intros H. unfold loadFromStorage, load_effect.
  cbn [initial storage].
  rewrite (JSONFacts.parse_stringify (JObj m) H).
  reflexivity.
Qed.

Lemma put_synced m id v st :
  storable (JObj m) = true -> str_ok id = true -> storable v = true ->
  synced (put (JObj m) id v st)
  /\ profileCache (put (JObj m) id v st) = JObj (set m id v).
Proof.
  intros Hm Hid Hv. split; [|reflexivity].
  exists (set m id v). split; [reflexivity|]. split; [|reflexivity].
  now apply storable_set.
Qed.

Lemma apply_writes_synced ws : forall st m,
  profileCache st = JObj m ->
  storable (JObj m) = true ->
  forallb write_ok ws = true ->
  ws <> [] ->
  synced (apply_writes ws st)
  /\ profileCache (apply_writes ws st) = JObj (written ws m).
Proof.
  induction ws as [|[id e] t IH]; intros st m Hc Hm Hok Hne; [congruence|].
  cbn [apply_writes written fold_left fst snd]. simpl in Hok.
  apply andb_true_iff in Hok. destruct Hok as [Hw Ht].
  unfold write_ok in Hw. cbn [fst snd] in Hw.
  apply andb_true_iff in Hw. destruct Hw as [Hid He].
  apply entry_storable in He. rewrite Hc.
  destruct (put_synced m id (entry_value e) st Hm Hid He) as [S P].
  destruct t as [|w t'].
  - split; [exact S|exact P].
  - apply IH; [exact P| |exact Ht|discriminate].
    now apply storable_set.
Qed.

(** C4: after any non-empty sequence of writes of summaries and sentinels
    under well-formed keys, starting from the empty cache, the storage
    holds the text of the mapping in memory, and loading it, as a reload
    does, gives a mapping equal to the one in memory, which is the one
    the writes built up. *)
Theorem put_load_roundtrip (saved : option text) ws :
  ws <> [] ->
  forallb write_ok ws = true ->
  loadFromStorage (storage (apply_writes ws (initial saved)))
  = profileCache (apply_writes ws (initial saved))
  /\ profileCache (apply_writes ws (initial saved)) = JObj (written ws []).
Proof.
  intros Hne Hok.
  destruct (@apply_writes_synced ws (initial saved) [] eq_refl eq_refl Hok Hne)
    as [[m [Hc [Hs Hst]]] Hw].
  split; [|exact Hw]. rewrite Hst, Hc. now apply load_stringify.
Qed.

Lemma put_load_roundtrip_witness :
  loadFromStorage (storage (apply_writes sample_writes (initial None)))
  = profileCache (apply_writes sample_writes (initial None))
  /\ profileCache (apply_writes sample_writes (initial None))
     = JObj (written sample_writes []).
Proof.
  apply (@put_load_roundtrip None sample_writes).
  - discriminate.
  - vm_compute. reflexivity.
Defined.

(** The sample, spelled out: the later summary has replaced the earlier
    one where it stood, and the text in storage is what a reload parses. *)
Example sample_writes_cache :
  profileCache (apply_writes sample_writes (initial None))
  = JObj [(jane, summary_value (lit "Insulin") (lit "Walk daily")
                   (lit "Diabetes"));
          (lit "Bob", JNull)].
Proof. vm_compute. reflexivity. Qed.






End AppSpec.

(** ** The flows of the detail view *)

Module ChatSpec.
Import JS JSON Gateway PatientChat Words Samples.

(** *** Trimming *)

Lemma trim_start_nil s : trim_start s = [] <-> forallb is_space s = true.
Proof.
  induction s as [|c t IH]; simpl; [tauto|].
  destruct (is_space c); simpl; [exact IH|]. split; discriminate.
Qed.

Lemma trim_start_head s c t : trim_start s = c :: t -> is_space c = false.
Proof.
  induction s as [|x u IH]; simpl; [discriminate|].
  destruct (is_space x) eqn:E; [exact IH|]. intros H. inversion H. now subst.
Qed.

Lemma forallb_rev (A : Type) (f : A -> bool) l :
  forallb f (rev l) = forallb f l.
Proof.
  induction l as [|x t IH]; simpl; [reflexivity|].
  rewrite forallb_app, IH. simpl. rewrite andb_true_r. apply andb_comm.
Qed.

(** [!query.trim()] holds exactly for the strings made of white space. *)
Lemma trim_nil s : trim s = [] <-> forallb is_space s = true.
Proof.
  unfold trim. split.
  - intros H. apply (f_equal (@rev N)) in H. rewrite rev_involutive in H.
    simpl in H. apply trim_start_nil in H. rewrite forallb_rev in H.
    destruct (trim_start s) as [|c t] eqn:E; [now apply trim_start_nil|].
    apply trim_start_head in E. simpl in H. rewrite E in H. discriminate.
  - intros H. apply trim_start_nil in H. rewrite H. reflexivity.
Qed.

(** *** Invariants of the transition system *)

Ltac step_cases H :=
  repeat match type of H with
  | (if ?c then _ else _) = Some _ => destruct c eqn:?
  | match ?x with _ => _ end = Some _ => destruct x eqn:?
  | None = Some _ => discriminate H
  end.

Section Invariants.

Variable patientName : jsstring.

Lemma query_gate_mounted : query_gate (fst (mounted patientName)).
Proof.
  left. unfold mounted, fetchPatientSummary.
  destruct patientName; [split; reflexivity|].
  destruct (uri_ok _); split; reflexivity.
Qed.

Lemma query_gate_submit now st :
  query_gate st -> query_gate (fst (handleQuerySubmit patientName now st)).
Proof.
  intros G. unfold handleQuerySubmit.
  destruct (is_empty (trim (query st)) || isQueryLoading st) eqn:E;
    [exact G|].
  apply orb_false_iff in E. destruct E as [_ E].
  destruct G as [[_ Hp]|[Hl _]]; [|congruence].
  right. simpl. rewrite Hp. split; [reflexivity|]. eexists. reflexivity.
Qed.

Lemma query_gate_ext st st' :
  isQueryLoading st' = isQueryLoading st ->
  queryPending st' = queryPending st ->
  query_gate st -> query_gate st'.
Proof. unfold query_gate. intros -> ->. tauto. Qed.

Lemma query_gate_step e st st' reqs :
  query_gate st -> step patientName e st = Some (st', reqs) -> query_gate st'.
Proof.
  intros G H. destruct e; simpl in H;
    step_cases H; apply (f_equal (option_map fst)) in H;
    cbn [option_map fst] in H; injection H as H; subst st'.
  - apply query_gate_ext with (st := st); trivial;
      unfold fetchPatientSummary_resume, summary_failed;
      destruct r as [?|[] ? []]; simpl; trivial;
      repeat match goal with
             | |- context [if ?c then _ else _] => destruct c
             | |- context [match get_field ?a ?b with _ => _ end] =>
                 destruct (get_field a b)
             end; reflexivity.
  - exact G.
  - exact G.
  - exact G.
  - now apply query_gate_submit.
  - destruct G as [[_ Hp]|[_ [m' Hp]]].
    + rewrite Hp in *. destruct i; discriminate.
    + rewrite Hp in *. destruct i as [|[|i]]; try discriminate.
      left. destruct r; split; reflexivity.
  - apply query_gate_ext with (st := st); trivial; unfold openDocumentsModal;
      destruct (documents st); trivial; destruct (uri_ok patientName);
      reflexivity.
  - apply query_gate_ext with (st := st); trivial;
      destruct r as [?|[] ? [[|]|]]; reflexivity.
  - exact G.
  - apply query_gate_ext with (st := st); trivial;
      destruct r as [?|[] ? []]; reflexivity.
  - exact G.
  - exact G.
Qed.

Lemma reachable_query_gate st : reachable patientName st -> query_gate st.
Proof.
  induction 1 as [|e st st' reqs _ IH Hs].
  - apply query_gate_mounted.
  - eapply query_gate_step; eassumption.
Qed.

Lemma uri_gate_ext st st' :
  summaryPending st' = summaryPending st ->
  isLoading st' = isLoading st ->
  profileError st' = profileError st ->
  uri_gate patientName st -> uri_gate patientName st'.
Proof. unfold uri_gate, main_shown. intros -> -> ->. tauto. Qed.

Lemma uri_gate_mounted : uri_gate patientName (fst (mounted patientName)).
Proof.
  unfold mounted, fetchPatientSummary, uri_gate.
  destruct patientName as [|c t] eqn:E; [split; discriminate|].
  destruct (uri_ok (c :: t)); split; trivial; discriminate.
Qed.

Lemma uri_gate_step e st st' reqs :
  uri_gate patientName st -> step patientName e st = Some (st', reqs) -> uri_gate patientName st'.
Proof.
  intros G H. destruct e; simpl in H;
    step_cases H; apply (f_equal (option_map fst)) in H;
    cbn [option_map fst] in H; injection H as H; subst st';
    try exact G.
  - destruct G as [G _]. split; [discriminate|]. intros _. now apply G.
  - apply uri_gate_ext with (st := st); trivial; unfold handleQuerySubmit;
      destruct (_ || _); reflexivity.
  - apply uri_gate_ext with (st := st); trivial; destruct r; reflexivity.
  - apply uri_gate_ext with (st := st); trivial; unfold openDocumentsModal;
      destruct (documents st); trivial; destruct (uri_ok patientName);
      reflexivity.
  - apply uri_gate_ext with (st := st); trivial;
      destruct r as [?|[] ? [[|]|]]; reflexivity.
  - apply uri_gate_ext with (st := st); trivial;
      destruct r as [?|[] ? []]; reflexivity.
Qed.

Lemma reachable_uri_gate st : reachable patientName st -> uri_gate patientName st.
Proof.
  induction 1 as [|e st st' reqs _ IH Hs].
  - apply uri_gate_mounted.
  - eapply uri_gate_step; eassumption.
Qed.

(** C6: in every state the component can reach, and whatever text [q] the
    input holds, a submission of an input that is empty or made of white
    space only, and a submission of any input, blank or not, made while an
    earlier one still waits for its answer, returns the state it was given
    and issues no request: no message is appended, the loading flag and
    the waiting submission are as they were. *)
Theorem submit_rejected now st q :
  reachable patientName st ->
  forallb is_space q = true \/ queryPending st <> [] ->
  handleQuerySubmit patientName now (setQuery q st) = (setQuery q st, []).
Proof.
  intros R H. unfold handleQuerySubmit.
  change (query (setQuery q st)) with q.
  change (isQueryLoading (setQuery q st)) with (isQueryLoading st).
  destruct H as [H|H].
  - apply trim_nil in H. rewrite H. reflexivity.
  - destruct (reachable_query_gate R) as [[_ Hp]|[Hl _]]; [contradiction|].
    rewrite Hl, orb_true_r. reflexivity.
Qed.


End Invariants.

Lemma run_reachable patientName es st st' reqs :
  reachable patientName st ->
  run patientName es st = Some (st', reqs) ->
  reachable patientName st'.
Proof.
  revert st st' reqs. induction es as [|e es IH]; simpl; intros st st' reqs R H.
  - inversion H; now subst.
  - destruct (step patientName e st) as [[st1 r1]|] eqn:E; [|discriminate].
    destruct (run patientName es st1) as [[st2 r2]|] eqn:E2; [|discriminate].
    inversion H; subst. eapply IH; [|exact E2].
    eapply reach_step; eassumption.
Qed.

Lemma after_reachable es reqs st :
  run jane es (fst (mounted jane)) = Some (st, reqs) ->
  reachable jane (after es).
Proof.
  intros H. unfold after. rewrite H.
  eapply run_reachable; [apply reach_mount|exact H].
Qed.

Lemma submit_rejected_witness :
  handleQuerySubmit jane 2000
    (setQuery (lit "What medications?") (after question_sent))
  = (setQuery (lit "What medications?") (after question_sent), []).
Proof.
  apply (@submit_rejected jane 2000 (after question_sent)
           (lit "What medications?")).
  - eapply after_reachable. vm_compute. reflexivity.
  - right. vm_compute. discriminate.
Defined.

(** The input of C6 in the words of the specification: white space only,
    with nothing waiting. *)
Example submit_blank :
  handleQuerySubmit jane 2000
    (setQuery (lit "   ") (after [SummaryResponse (ok (JObj [])); Expand]))
  = (setQuery (lit "   ") (after [SummaryResponse (ok (JObj [])); Expand]), []).
Proof. vm_compute. reflexivity. Qed.

(** A submission that is neither is accepted: the user message is appended
    and one request is issued. *)
Example submit_accepted :
  exists st,
    run jane question_sent (fst (mounted jane))
    = Some (st, [PostQuery jane (lit "What medications?")])
    /\ messages st = [mkMessage user (lit "What medications?") 1000 false]
    /\ isQueryLoading st = true
    /\ query st = [].
Proof. eexists. vm_compute. repeat split. Qed.


(** The test of the specification for C7, as a run: the first opening
    issues the request, the list arrives with two documents, the modal is
    closed and opened again without a request; had the list arrived empty,
    the second opening would have issued the request again. *)
Example reopen_after_load :
  option_map snd
    (run jane [SummaryResponse (ok (JObj [])); OpenDocuments;
               DocsResponse (ok [docA; docB]); CloseModal; OpenDocuments]
         (fst (mounted jane)))
  = Some [GetDocuments jane]
  /\ option_map snd
       (run jane [SummaryResponse (ok (JObj [])); OpenDocuments;
                  DocsResponse (ok []); CloseModal; OpenDocuments]
            (fst (mounted jane)))
     = Some [GetDocuments jane; GetDocuments jane].
Proof. split; vm_compute; reflexivity. Qed.

(** C3 as stated is false: [docB] is the document selected last and its
    content has arrived, and the late response for [docA] still replaces
    it in the slot. *)
Lemma late_response_overwrites :
  exists st reqs,
    run jane late_response_trace (fst (mounted jane)) = Some (st, reqs)
    /\ selectedDoc st
       = Some (mkView (filename docA) (body_content contentA)
                 (body_classification contentA))
    /\ contentPending st = []
    /\ reqs = [GetDocuments jane; PostDocumentContent (path docA);
               PostDocumentContent (path docB)].
Proof. do 2 eexists. vm_compute. repeat split. Qed.

(** C3, amended: a response to a waiting content request is always
    committed.  Whatever the slot holds when the response for a document
    arrives (nothing, that document still loading, or another document
    selected later, loading or loaded), the step writes into the slot the
    file name of the document the request was made for, with the content
    and classification of the response, or with the error text when the
    request failed; the request then no longer waits.  No late response
    is discarded. *)
Theorem content_response_commits patientName st i d r :
  nth_error (contentPending st) i = Some d ->
  exists st',
    step patientName (ContentResponse i r) st = Some (st', [])
    /\ selectedDoc st'
       = Some match r with
              | Resolved true _ (Json data) =>
                  mkView (filename d) (body_content data)
                    (body_classification data)
              | _ =>
                  mkView (filename d)
                    (lit "Error loading content. Please try again.") []
              end
    /\ contentPending st' = remove_nth i (contentPending st).
Proof.
  intros H. eexists. split; [cbn [step]; rewrite H; reflexivity|].
  split; [|reflexivity]. destruct r as [?|[] ? []]; reflexivity.
Qed.

Lemma content_response_commits_witness :
  exists st',
    step jane (ContentResponse 0 (ok contentA))
      (after [SummaryResponse (ok (JObj [])); OpenDocuments;
              DocsResponse (ok [docA; docB]); ViewDocument 0; BackToList;
              ViewDocument 1; ContentResponse 1 (ok contentB)])
    = Some (st', [])
    /\ selectedDoc st'
       = Some (mkView (filename docA) (body_content contentA)
                 (body_classification contentA))
    /\ contentPending st'
       = remove_nth 0
           (contentPending
              (after [SummaryResponse (ok (JObj [])); OpenDocuments;
                      DocsResponse (ok [docA; docB]); ViewDocument 0;
                      BackToList; ViewDocument 1;
                      ContentResponse 1 (ok contentB)])).
Proof.
  apply (@content_response_commits jane
           (after [SummaryResponse (ok (JObj [])); OpenDocuments;
                   DocsResponse (ok [docA; docB]); ViewDocument 0;
                   BackToList; ViewDocument 1;
                   ContentResponse 1 (ok contentB)])
           0 docA (ok contentA)).
  vm_compute. reflexivity.
Defined.

(** The slot before that response: the document selected last, loaded. *)
Example slot_before_late_response :
  selectedDoc
    (after [SummaryResponse (ok (JObj [])); OpenDocuments;
            DocsResponse (ok [docA; docB]); ViewDocument 0; BackToList;
            ViewDocument 1; ContentResponse 1 (ok contentB)])
  = Some (mkView (filename docB) (body_content contentB)
            (body_classification contentB)).
Proof. vm_compute. reflexivity. Qed.

(** *** The summary *)

Lemma field_or_shown data summary k placeholder :
  get_field data (lit "summary") = Some summary ->
  field_or summary k placeholder = shown (raw_field data k) placeholder.
Proof.
  intros H. unfold raw_field, shown.
  destruct data as [| | | | |m]; simpl in H; try discriminate;
    injection H as <-; simpl; try reflexivity.
  destruct (own m (lit "summary")) as [v|]; simpl; [|reflexivity].
  destruct v as [| | | | |s]; reflexivity.
Qed.

Lemma shown_truthy raw placeholder :
  placeholder <> [] -> truthy (shown raw placeholder) = true.
Proof.
  intros H. unfold shown. destruct raw as [v|].
  - destruct (truthy v) eqn:E; [exact E|]. now destruct placeholder.
  - now destruct placeholder.
Qed.

(** C8: whenever the summary request ends with a profile being held, each
    of its three fields is populated: it is the value of the raw response
    when that is present (and truthy), and the placeholder text when the
    field, or the whole summary object, is absent. *)
Theorem summary_normalized patientName status data st p :
  profileData
    (fetchPatientSummary_resume patientName
       (Resolved true status (Json data)) st) = Some p ->
  (truthy (medication_summary p) = true
   /\ truthy (lifestyle_recommendations p) = true
   /\ truthy (condition_summary p) = true)
  /\ medication_summary p
     = shown (raw_field data (lit "medication_summary"))
         (lit "No medication information available.")
  /\ lifestyle_recommendations p
     = shown (raw_field data (lit "lifestyle_recommendations"))
         (lit "No lifestyle recommendations available.")
  /\ condition_summary p
     = shown (raw_field data (lit "condition_summary"))
         (lit "No condition information available.").
Proof.
  intros H. simpl in H.
  destruct (get_field data (lit "summary")) as [summary|] eqn:E;
    [|discriminate].
  simpl in H. injection H as <-. unfold normalize. simpl.
  rewrite !(@field_or_shown data summary _ _ E).
  repeat split; apply shown_truthy; discriminate.
Qed.

Lemma summary_normalized_witness :
  (truthy (JStr (lit "Metformin")) = true
   /\ truthy (JStr (lit "No lifestyle recommendations available.")) = true
   /\ truthy (JStr (lit "No condition information available.")) = true)
  /\ JStr (lit "Metformin")
     = shown (raw_field metformin_only (lit "medication_summary"))
         (lit "No medication information available.")
  /\ JStr (lit "No lifestyle recommendations available.")
     = shown (raw_field metformin_only (lit "lifestyle_recommendations"))
         (lit "No lifestyle recommendations available.")
  /\ JStr (lit "No condition information available.")
     = shown (raw_field metformin_only (lit "condition_summary"))
         (lit "No condition information available.").
Proof.
  apply (@summary_normalized jane 200 metformin_only (fst (mounted jane))
           (mkProfile (JStr (lit "Metformin"))
              (JStr (lit "No lifestyle recommendations available."))
              (JStr (lit "No condition information available.")))).
  vm_compute. reflexivity.
Defined.

(** A failed request holds no profile at all. *)
Lemma summary_failure_holds_nothing patientName r st :
  match r with
  | Resolved true _ (Json JNull) => True
  | Resolved true _ (Json _) => False
  | _ => True
  end ->
  profileData (fetchPatientSummary_resume patientName r st) = None.
Proof.
  destruct r as [?|[] ? [[]|]]; simpl; intros H; try contradiction;
    try reflexivity; destruct (_ =? _)%N; reflexivity.
Qed.

(** *** Grouping *)

Lemma group_fold_None docs : fold_left group_step docs None = None.
Proof. induction docs; simpl; trivial. Qed.

(** What the reducer adds to an accumulator: each document goes to the end
    of the group of its name, a group is created by its first document. *)
Lemma group_fold_spec docs : forall g g',
  fold_left group_step docs (Some g) = Some g' ->
  forall k,
    own g' k =
    match own g k with
    | Some l => Some (l ++ filter (named k) docs)
    | None =>
        match filter (named k) docs with
        | [] => None
        | x :: t => Some (x :: t)
        end
    end.
Proof.
  induction docs as [|d docs IH]; intros g g' H k.
  - simpl in *. injection H as <-. destruct (own g k); [|reflexivity].
    now rewrite app_nil_r.
  - simpl in H. unfold named at 1 2. simpl.
    destruct (own g (group_name d)) as [l|] eqn:E.
    + rewrite (IH _ _ H k).
      destruct (jsstring_eq_dec k (group_name d)) as [->|Hne].
      * rewrite ObjectFacts.own_set_same, E, ObjectFacts.eqb_str_refl.
        now rewrite <- app_assoc.
      * rewrite ObjectFacts.own_set_other by exact Hne.
        destruct (eqb_str (group_name d) k) eqn:Eb; [|reflexivity].
        apply ObjectFacts.eqb_str_true in Eb. congruence.
    + destruct (inherited (group_name d));
        [rewrite group_fold_None in H; discriminate|].
      rewrite (IH _ _ H k).
      destruct (jsstring_eq_dec k (group_name d)) as [->|Hne].
      * now rewrite ObjectFacts.own_set_same, E, ObjectFacts.eqb_str_refl.
      * rewrite ObjectFacts.own_set_other by exact Hne.
        destruct (eqb_str (group_name d) k) eqn:Eb; [|reflexivity].
        apply ObjectFacts.eqb_str_true in Eb. congruence.
Qed.

(** The reducer completes when no group name is an inherited one. *)
Lemma group_fold_total docs : forall g,
  (forall d, In d docs -> inherited (group_name d) = false) ->
  exists g', fold_left group_step docs (Some g) = Some g'.
Proof.
  induction docs as [|d docs IH]; intros g H; simpl; [eauto|].
  destruct (own g (group_name d)); [apply IH; intros; apply H; now right|].
  rewrite (H d) by now left. apply IH. intros; apply H; now right.
Qed.

Lemma grouped_placement docs g d :
  groupedDocuments docs = Some g -> In d docs ->
  exists l, own g (group_name d) = Some l /\ In d l.
Proof.
  intros H Hin.
  pose proof (@group_fold_spec docs [] g H (group_name d)) as S.
  simpl in S.
  assert (F : In d (filter (named (group_name d)) docs)).
  { apply filter_In. split; [exact Hin|]. apply ObjectFacts.eqb_str_refl. }
  destruct (filter (named (group_name d)) docs) as [|x t];
    [contradiction|]. eauto.
Qed.

(** The grouping on every list whose group names are not inherited ones:
    a group exists for exactly the names that occur, and holds the
    documents of that name in the order of the list; a document with a
    non-empty category has that category as its name, a document with no
    category, or an empty one, has the name [Other]. *)
Lemma grouping_spec docs :
  (forall d, In d docs -> inherited (group_name d) = false) ->
  exists g,
    groupedDocuments docs = Some g
    /\ (forall k,
          own g k = match filter (named k) docs with
                    | [] => None
                    | x :: t => Some (x :: t)
                    end)
    /\ (forall d, In d docs ->
          exists l, own g (group_name d) = Some l /\ In d l)
    /\ (forall d c, category d = Some c -> c <> [] -> group_name d = c)
    /\ (forall d, category d = None -> group_name d = lit "Other").
Proof.
  intros H. destruct (@group_fold_total docs [] H) as [g Hg]. exists g.
  split; [exact Hg|]. split; [|split; [|split]].
  - intros k. exact (@group_fold_spec docs [] g Hg k).
  - intros d Hin. now apply grouped_placement with (docs := docs).
  - intros d c Hc Hne. unfold group_name. rewrite Hc.
    destruct c; [congruence|reflexivity].
  - intros d Hc. unfold group_name. now rewrite Hc.
Qed.

(** The example of the specification: two documents of category [Labs]
    and one without a category. *)
Example grouping_labs_other :
  groupedDocuments [docA; docB; docC]
  = Some [(lit "Labs", [docA; docB]); (lit "Other", [docC])].
Proof. vm_compute. reflexivity. Qed.

(** C9 (fails on the code): the accumulator is an ordinary object, so for
    a category that names an inherited property, [groups[cat]] is that
    inherited value, no array is created, the call of [push] throws, and
    no grouping is produced at all, neither for this document nor for the
    others of the list. *)
Theorem grouping_inherited_category :
  category docProto = Some (lit "constructor")
  /\ groupedDocuments [docProto] = None
  /\ groupedDocuments [docA; docProto; docB; docC] = None.
Proof. repeat split. Qed.

(** *** The document list *)

Lemma mapM_None (A B : Type) (f : A -> option B) l x :
  In x l -> f x = None -> mapM f l = None.
Proof.
  induction l as [|y t IH]; simpl; [contradiction|].
  intros [->|Hin] Hx; [now rewrite Hx|].
  rewrite (IH Hin Hx). now destruct (f y).
Qed.

(** C10: a list that holds a document without category cannot be rendered:
    the class of that item is computed from the absent category, and the
    whole list comes to nothing, although the grouping (when it completes)
    has put the document into the group [Other]. *)
Theorem absent_category_breaks_rendering toLowerCase docs d :
  In d docs ->
  category d = None ->
  className toLowerCase d = None
  /\ render_document_list toLowerCase docs = None
  /\ (forall g, groupedDocuments docs = Some g ->
        exists l, own g (lit "Other") = Some l /\ In d l).
Proof.
  intros Hin Hc.
  assert (Hcl : className toLowerCase d = None).
  { unfold className. now rewrite Hc. }
  assert (Hn : group_name d = lit "Other").
  { unfold group_name. now rewrite Hc. }
  split; [exact Hcl|]. split.
  - unfold render_document_list.
    destruct (groupedDocuments docs) as [g|] eqn:E; [|reflexivity].
    destruct (@grouped_placement docs g d E Hin) as [l [Ho Hl]].
    apply mapM_None with (x := (group_name d, l)).
    + now apply ObjectFacts.own_In.
    + unfold render_section. simpl.
      rewrite (@mapM_None _ _ (render_item toLowerCase) l d Hl); [reflexivity|].
      unfold render_item. now rewrite Hcl.
  - intros g E. rewrite <- Hn. now apply grouped_placement with (docs := docs).
Qed.

Lemma absent_category_breaks_rendering_witness :
  className (fun c => c) docC = None
  /\ render_document_list (fun c => c) [docA; docB; docC] = None
  /\ (forall g, groupedDocuments [docA; docB; docC] = Some g ->
        exists l, own g (lit "Other") = Some l /\ In docC l).
Proof.
  apply (@absent_category_breaks_rendering (fun c => c) [docA; docB; docC] docC).
  - simpl. tauto.
  - reflexivity.
Defined.

(** With a category on every document the list is rendered. *)
Example rendering_with_categories :
  render_document_list (fun c => c) [docA; docB]
  = Some [(lit "Labs",
           [mkItem (lit "doc-item Labs") (lit "a.pdf");
            mkItem (lit "doc-item Labs") (lit "b.pdf")])].
Proof. vm_compute. reflexivity. Qed.

End ChatSpec.

(** ** The roster *)

Module ListSpec.
Import JS Gateway PatientList Notions.

Lemma lit_inj a b : lit a = lit b -> a = b.
Proof.
  unfold lit. intros H.
  rewrite <- (string_of_list_ascii_of_string a),
          <- (string_of_list_ascii_of_string b).
  f_equal. revert H.
  generalize (list_ascii_of_string a) (list_ascii_of_string b).
  induction l as [|x l IH]; intros [|y l']; simpl; try discriminate; trivial.
  intros [= Hx Hl]. f_equal; [|now apply IH].
  rewrite <- (ascii_N_embedding x), <- (ascii_N_embedding y). now rewrite Hx.
Qed.

Lemma decimal_inj n m : decimal n = decimal m -> n = m.
Proof.
  unfold decimal. intros H. apply lit_inj in H.
  assert (E : Some (Nat.to_uint n) = Some (Nat.to_uint m)).
  { rewrite <- !NilEmpty.usu. now rewrite H. }
  injection E as E.
  rewrite <- (DecimalNat.Unsigned.of_to n), <- (DecimalNat.Unsigned.of_to m).
  now rewrite E.
Qed.

Section Roster.

Variable toLowerCase : jsstring -> jsstring.
Variable isoDate : nat -> jsstring.

Lemma transform_from_ids names : forall index p,
  In p (transform_from isoDate index names) ->
  exists k, index <= k /\ id p = lit "patient-" ++ decimal (k + 1).
Proof.
  induction names as [|n t IH]; intros index p H; simpl in H; [contradiction|].
  destruct H as [<-|H].
  - exists index. split; [lia|reflexivity].
  - destruct (IH _ _ H) as [k [Hk E]]. exists k. split; [lia|exact E].
Qed.

Lemma transform_from_NoDup names : forall index,
  NoDup (map id (transform_from isoDate index names)).
Proof.
  induction names as [|n t IH]; intros index; cbn [transform_from map id];
    constructor; [|apply IH].
  intros H. apply in_map_iff in H. destruct H as [p [E Hp]].
  apply transform_from_ids in Hp. destruct Hp as [k [Hk E']].
  rewrite E' in E. cbn [id] in E. apply app_inv_head in E.
  apply decimal_inj in E. lia.
Qed.

Lemma transform_from_names names : forall index,
  map name (transform_from isoDate index names) = names.
Proof.
  induction names as [|n t IH]; intros index; simpl; [reflexivity|].
  now rewrite IH.
Qed.

(** X1: the rows made from the roster keep the names as they came, one row
    per name and in the same order, and their identifiers are pairwise
    different even when names repeat. *)
Theorem roster_rows_keyed names :
  map name (transformedPatients isoDate names) = names
  /\ List.length (transformedPatients isoDate names) = List.length names
  /\ NoDup (map id (transformedPatients isoDate names)).
Proof.
  unfold transformedPatients. split; [apply transform_from_names|].
  split; [|apply transform_from_NoDup].
  rewrite <- (transform_from_names names 0) at 2. now rewrite length_map.
Qed.

Lemma starts_with_spec t : forall s,
  starts_with t s = true <-> exists post, s = t ++ post.
Proof.
  induction t as [|a t IH]; intros s; simpl.
  - split; [eauto|reflexivity].
  - destruct s as [|b s']; [split; [discriminate|intros [? [=]]]|].
    rewrite andb_true_iff, N.eqb_eq, IH. split.
    + intros [-> [post ->]]. eauto.
    + intros [post [= -> ->]]. eauto.
Qed.

(** [includes] is the search for a contiguous run of code units. *)
Lemma includes_spec s : forall t,
  includes s t = true <-> exists pre post, s = pre ++ t ++ post.
Proof.
  induction s as [|c s IH]; intros t.
  - simpl. rewrite orb_false_r, starts_with_spec. split.
    + intros [post E]. exists [], post. exact E.
    + intros [pre [post E]]. destruct pre; [eauto|discriminate].
  - cbn [includes]. rewrite orb_true_iff, starts_with_spec, IH. split.
    + intros [[post E]|[pre [post E]]].
      * exists [], post. exact E.
      * exists (c :: pre), post. now rewrite E.
    + intros [[|x pre] [post E]].
      * left. eauto.
      * right. injection E as _ E. eauto.
Qed.

Lemma filter_subsequence (A : Type) (f : A -> bool) l :
  subsequence (filter f l) l.
Proof.
  induction l as [|x t IH]; simpl; [constructor|].
  destruct (f x); now constructor.
Qed.

Lemma filter_NoDup_map (A B : Type) (g : A -> B) (f : A -> bool) l :
  NoDup (map g l) -> NoDup (map g (filter f l)).
Proof.
  induction l as [|x t IH]; simpl; [trivial|].
  intros N. inversion N as [|? ? Hn Hd]; subst.
  destruct (f x); [|now apply IH]. simpl. constructor; [|now apply IH].
  intros H. apply Hn. apply in_map_iff in H. destruct H as [y [E Hy]].
  apply filter_In in Hy. apply in_map_iff. exists y. tauto.
Qed.

(** X2: the table shows exactly the patients whose name, in lower case,
    contains the search term, in lower case, as a contiguous run of code
    units.  Its rows are the roster with the other rows left out, so they
    come in the order of the roster, and when the identifiers of the roster
    are pairwise different no row is shown twice. *)
Theorem search_is_substring_match st :
  subsequence (filteredPatients toLowerCase st) (patients st)
  /\ (forall p,
        In p (filteredPatients toLowerCase st)
        <-> In p (patients st)
            /\ exists pre post,
                 toLowerCase (name p)
                 = pre ++ toLowerCase (searchTerm st) ++ post)
  /\ (NoDup (map id (patients st)) ->
      NoDup (map id (filteredPatients toLowerCase st))).
Proof.
  unfold filteredPatients. split; [apply filter_subsequence|]. split.
  - intros p. rewrite filter_In, includes_spec. reflexivity.
  - apply filter_NoDup_map.
Qed.

Lemma includes_trans a b c :
  includes a b = true -> includes b c = true -> includes a c = true.
Proof.
  rewrite !includes_spec. intros [p1 [q1 ->]] [p2 [q2 ->]].
  exists (p1 ++ p2), (q2 ++ q1). now rewrite <- !app_assoc.
Qed.

Lemma includes_nil s : includes s [] = true.
Proof. apply includes_spec. exists [], s. reflexivity. Qed.

(** X3: a search term whose lower-case form occurs in that of another term
    finds every patient the other finds, so that extending a term never
    brings a patient back; a term whose lower-case form is empty shows the
    whole roster. *)
Theorem search_narrows st shorter longer :
  includes (toLowerCase longer) (toLowerCase shorter) = true ->
  incl (filteredPatients toLowerCase (handleSearchChange longer st))
       (filteredPatients toLowerCase (handleSearchChange shorter st))
  /\ (toLowerCase shorter = [] ->
      filteredPatients toLowerCase (handleSearchChange shorter st)
      = patients st).
Proof.
  intros H. split.
  - intros p. unfold filteredPatients, handleSearchChange. simpl.
    rewrite !filter_In. intros [Hp Hi]. split; [exact Hp|].
    now apply includes_trans with (b := toLowerCase longer).
  - intros E. unfold filteredPatients, handleSearchChange. simpl. rewrite E.
    apply forallb_filter_id. apply forallb_forall. intros x _.
    apply includes_nil.
Qed.

(** X4: whatever goes wrong with the roster request (the promise rejects,
    the status is not ok, the body is not JSON or has no [patients] array),
    the component ends with the same non-empty message and without rows,
    and shows the error panel whatever is typed into the search box; a
    response with a [patients] array leaves no error. *)
Theorem roster_response_outcome r :
  match r with
  | Resolved true _ (Json (Some names)) =>
      patients (roster_response isoDate r initial)
      = transformedPatients isoDate names
      /\ error (roster_response isoDate r initial) = []
  | _ =>
      patients (roster_response isoDate r initial) = []
      /\ forall term,
           render toLowerCase
             (handleSearchChange term (roster_response isoDate r initial))
           = ErrorPanel
               (lit "Could not fetch patient list. Please ensure the backend server is running.")
  end.
Proof.
  destruct r as [?|[] ? [[names|]|]]; simpl; split; trivial.
Qed.

End Roster.

Lemma search_narrows_witness :
  incl (filteredPatients (fun s => s)
          (handleSearchChange (lit "jan")
             (mkState (transformedPatients (fun _ => []) [lit "jane"; lit "bob"])
                [] [])))
       (filteredPatients (fun s => s)
          (handleSearchChange (lit "ja")
             (mkState (transformedPatients (fun _ => []) [lit "jane"; lit "bob"])
                [] [])))
  /\ (lit "ja" = [] ->
      filteredPatients (fun s => s)
        (handleSearchChange (lit "ja")
           (mkState (transformedPatients (fun _ => []) [lit "jane"; lit "bob"])
              [] []))
      = transformedPatients (fun _ => []) [lit "jane"; lit "bob"]).
Proof.
  apply (@search_narrows (fun s => s)
           (mkState (transformedPatients (fun _ => []) [lit "jane"; lit "bob"])
              [] [])
           (lit "ja") (lit "jan")).
  vm_compute. reflexivity.
Defined.

End ListSpec.

(** ** More on the profile cache *)

Module AppMore.
Import JS JSON Gateway App Samples Words Notions.

Lemma remove_nth_length (A : Type) (l : list A) : forall i x,
  nth_error l i = Some x ->
  S (List.length (remove_nth i l)) = List.length l.
Proof.
  induction l as [|y t IH]; intros [|i] x H; simpl in *; try discriminate;
    trivial.
  f_equal. now apply IH with (x := x).
Qed.

Lemma resume_is_put captured name r st :
  fetchAndCacheProfile_resume captured name r st
  = put captured name (stored_value r) st.
Proof. destruct r as [?|[] ? []]; reflexivity. Qed.

(** X5: when the response to a profile request is settled, whatever it
    is, the cache gets an entry for the requested patient: the body of the
    response when the [try] block runs to its end (the response is ok and
    JSON, and the new cache is serialised and stored without a throw), and
    the sentinel [null] in every other case.  The other entries of the new
    cache are those of the cache the request captured when it was issued,
    not those of the cache of the moment.  The storage receives the text
    of the new cache when that write does not throw, and keeps what it had
    otherwise.  When no write throws, this is the continuation used in the
    runs above. *)
Theorem profile_response_records_entry writable captured name r st :
  exists m,
    profileCache (fetchAndCacheProfile_settle writable captured name r st)
    = JObj m
    /\ own m name
       = Some (if commits writable captured name r then stored_value r
               else JNull)
    /\ (forall k, k <> name -> own m k = own (spread captured) k)
    /\ storage (fetchAndCacheProfile_settle writable captured name r st)
       = (if writable (JObj m) then Some (stringify (JObj m))
          else storage st)
    /\ selectedPatient
         (fetchAndCacheProfile_settle writable captured name r st)
       = selectedPatient st
    /\ inflight (fetchAndCacheProfile_settle writable captured name r st)
       = inflight st
    /\ ((forall c, writable c = true) ->
        fetchAndCacheProfile_settle writable captured name r st
        = fetchAndCacheProfile_resume captured name r st).
Proof.
  assert (Caught : forall v,
    own (set (spread captured) name v) name = Some v
    /\ (forall k, k <> name ->
          own (set (spread captured) name v) k = own (spread captured) k)).
  { intros v. split; [apply ObjectFacts.own_set_same|].
    intros k Hk. now apply ObjectFacts.own_set_other. }
  unfold fetchAndCacheProfile_settle, commits.
  destruct r as [msg|[] status [data|msg]]; cbn [stored_value].
  2: destruct (writable (JObj (set (spread captured) name data))) eqn:W.
  all: eexists; (split; [reflexivity|]);
    (split; [apply Caught|]); (split; [apply Caught|]);
    cbn [storage selectedPatient inflight]; rewrite ?W;
    (split; [reflexivity|]); (split; [reflexivity|]);
    (split; [reflexivity|]); intros All;
    rewrite ?All in *; try discriminate; reflexivity.
Qed.





Lemma step_keeps_object e st st' reqs :
  (exists m, profileCache st = JObj m) ->
  step e st = Some (st', reqs) ->
  exists m, profileCache st' = JObj m.
Proof.
  intros [m Hc] H. destruct e as [name| |i r]; simpl in H.
  - destruct (selectedPatient st) as [[|? ?]|]; try discriminate;
      unfold handlePatientSelect in H;
      (destruct (not_cached (profileCache st) name) as [[|]|];
       [| |discriminate]);
      injection H as <- _; exists m; exact Hc.
  - injection H as <- _. exists m. exact Hc.
  - destruct (nth_error (inflight st) i) as [[name captured]|];
      [|discriminate].
    injection H as <- _. rewrite resume_is_put. eexists. reflexivity.
Qed.

Lemma run_keeps_object es : forall st st' reqs,
  (exists m, profileCache st = JObj m) ->
  run es st = Some (st', reqs) ->
  exists m, profileCache st' = JObj m.
Proof.
  induction es as [|e es IH]; intros st st' reqs C H; simpl in H.
  - injection H as <- _. exact C.
  - destruct (step e st) as [[st1 r1]|] eqn:E; [|discriminate].
    destruct (run es st1) as [[st2 r2]|] eqn:E2; [|discriminate].
    injection H as <- _. apply (IH st1 st2 r2); [|exact E2].
    now apply (@step_keeps_object e st st1 r1).
Qed.

(** X8: when the stored text is absent, is not JSON, or is the text of an
    object, the cache is an object after the mount effect and stays one
    along every run, so that the lookup in [handlePatientSelect] is
    defined for every name at every moment. *)
Theorem selection_always_defined saved es st reqs name :
  loads_object saved ->
  run es (load_effect (initial saved)) = Some (st, reqs) ->
  (exists m, profileCache st = JObj m)
  /\ handlePatientSelect name st <> None.
Proof.
  intros L H.
  assert (C : exists m, profileCache (load_effect (initial saved)) = JObj m).
  { unfold load_effect, loads_object in *. cbn [initial storage].
    destruct saved as [[|c t]|]; try (exists []; reflexivity).
    destruct (parse (c :: t)) as [[| | | | |m]|]; try contradiction;
      [exists m|exists []]; reflexivity. }
  destruct (@run_keeps_object es _ st reqs C H) as [m Hm].
  split; [exists m; exact Hm|].
  unfold handlePatientSelect. rewrite Hm. cbn [not_cached].
  destruct (own m name) as [v|].
  - destruct (negb (truthy v)); discriminate.
  - destruct (negb (inherited name)); discriminate.
Qed.

Lemma selection_always_defined_witness :
  (exists m,
     profileCache
       (app_after [Select jane; ProfileResponse 0 (Rejected []); Back])
     = JObj m)
  /\ handlePatientSelect jane
       (app_after [Select jane; ProfileResponse 0 (Rejected []); Back])
     <> None.
Proof.
  apply (@selection_always_defined None
           [Select jane; ProfileResponse 0 (Rejected []); Back]
           (app_after [Select jane; ProfileResponse 0 (Rejected []); Back])
           [GetProfile jane; GetSummary jane] jane).
  - exact I.
  - vm_compute. reflexivity.
Defined.

(** X9: a stored text that is the JSON value [null] is not rejected by the
    mount effect: it becomes the cache, and the lookup in
    [handlePatientSelect] then throws for every name. *)
Theorem null_payload_breaks_selection payload name :
  parse payload = Some JNull ->
  profileCache (load_effect (initial (Some payload))) = JNull
  /\ handlePatientSelect name (load_effect (initial (Some payload))) = None.
Proof.
  intros H. unfold load_effect. cbn [initial storage].
  destruct payload as [|c t]; [discriminate|]. rewrite H. split; reflexivity.
Qed.

Lemma null_payload_breaks_selection_witness :
  profileCache (load_effect (initial (Some (lit " null ")))) = JNull
  /\ handlePatientSelect jane (load_effect (initial (Some (lit " null "))))
     = None.
Proof.
  apply (@null_payload_breaks_selection (lit " null ") jane).
  vm_compute. reflexivity.
Defined.

End AppMore.

(** ** More on the flows of the detail view *)

Module ChatMore.
Import JS JSON Gateway PatientChat Words Samples Notions.

(** The state after a step, with the case analysis of its guards done. *)
Ltac after_step H :=
  simpl in H;
  repeat match type of H with
  | (if ?c then _ else _) = Some _ => destruct c eqn:?
  | match ?x with _ => _ end = Some _ => destruct x eqn:?
  | None = Some _ => discriminate H
  end;
  apply (f_equal (option_map fst)) in H; cbn [option_map fst] in H;
  injection H as H; subst.

(** Unfolds the handlers and decides their guards. *)
Ltac handlers :=
  unfold handleQuerySubmit, handleQuerySubmit_resume, openDocumentsModal,
    openDocumentsModal_resume, documents_failed, viewDocumentContent,
    viewDocumentContent_resume, content_failed, closeModal,
    fetchPatientSummary_resume, summary_failed;
  repeat match goal with
  | |- context [if ?c then _ else _] => destruct c eqn:?
  | |- context [match ?x with _ => _ end] => destruct x eqn:?
  end;
  cbn.

Lemma or_default_nonempty a b : b <> [] -> or_default a b <> [].
Proof. intros H. destruct a; simpl; [exact H|discriminate]. Qed.

Lemma normalize_populated summary : populated (normalize summary).
Proof.
  assert (F : forall k ph, ph <> [] -> truthy (field_or summary k ph) = true).
  { intros k ph Hph. unfold field_or.
    assert (T : truthy (JStr ph) = true) by (destruct ph; [congruence|reflexivity]).
    destruct summary as [v|]; [|exact T].
    destruct v; try exact T;
      cbn [get_field]; try exact T.
    destruct (own m k) as [x|]; [|exact T].
    destruct (truthy x) eqn:E; [exact E|exact T]. }
  repeat split; apply F; discriminate.
Qed.

Section Invariants.

Variable patientName : jsstring.

Lemma summary_view_ext st st' :
  isLoading st' = isLoading st ->
  profileData st' = profileData st ->
  profileError st' = profileError st ->
  summaryPending st' = summaryPending st ->
  summary_view st -> summary_view st'.
Proof. unfold summary_view. intros -> -> -> ->. tauto. Qed.

Lemma summary_view_mounted : summary_view (fst (mounted patientName)).
Proof.
  unfold mounted, fetchPatientSummary, summary_view.
  destruct patientName as [|c t].
  - cbn. split; [left; auto|discriminate].
  - destruct (uri_ok (c :: t)); cbn.
    + split; [left; auto|reflexivity].
    + split; [|discriminate]. right. left. repeat split. discriminate.
Qed.

Lemma summary_view_response r st :
  summaryPending st = true -> summary_view st ->
  summary_view
    (setSummaryPending false (fetchPatientSummary_resume patientName r st)).
Proof.
  intros P [_ E]. specialize (E P).
  assert (Fail : forall msg,
    summary_view (setSummaryPending false (summary_failed msg st))).
  { intros msg. split; [|discriminate]. right. left. cbn.
    repeat split. apply or_default_nonempty. discriminate. }
  unfold fetchPatientSummary_resume.
  destruct r as [msg|ok status b]; [apply Fail|]. destruct ok.
  - destruct b as [data|msg]; [|apply Fail].
    destruct (get_field data (lit "summary")) as [summary|]; [|apply Fail].
    split; [|discriminate]. right. right. cbn.
    split; [reflexivity|]. split; [exact E|].
    eexists. split; [reflexivity|apply normalize_populated].
  - destruct (status =? 404)%N; apply Fail.
Qed.

Lemma summary_view_step e st st' reqs :
  summary_view st -> step patientName e st = Some (st', reqs) ->
  summary_view st'.
Proof.
  intros G H. destruct e;
    try (after_step H;
         first [ exact G
               | apply summary_view_ext with (st := st); trivial;
                 handlers; reflexivity ]).
  simpl in H. destruct (summaryPending st) eqn:P; [|discriminate].
  injection H as <- _. now apply summary_view_response.
Qed.

Lemma reachable_summary_view st :
  reachable patientName st -> summary_view st.
Proof.
  induction 1 as [|e st st' reqs _ IH Hs].
  - apply summary_view_mounted.
  - eapply summary_view_step; eassumption.
Qed.

(** X10: in every state the detail view can reach, the summary panel is in
    one of three conditions: still loading, with nothing held and no
    error; failed, with nothing held and a non-empty message; or loaded,
    with no error and a profile whose three fields are populated.  So
    whenever the main panel is rendered, the profile it reads its three
    fields from is there. *)
Theorem summary_panel_consistent st :
  reachable patientName st ->
  summary_view st
  /\ (main_shown st = true ->
      exists p, profileData st = Some p /\ populated p).
Proof.
  intros R. pose proof (reachable_summary_view R) as V.
  split; [exact V|]. unfold main_shown. intros M.
  apply andb_true_iff in M. destruct M as [M1 M2].
  apply negb_true_iff in M1.
  destruct V as [[[L _]|[[_ [_ E]]|[_ [_ P]]]] _].
  - congruence.
  - destruct (profileError st); [congruence|discriminate].
  - exact P.
Qed.

Lemma flags_live_ext st st' :
  isLoadingDocs st' = isLoadingDocs st ->
  docsPending st' = docsPending st ->
  isLoading st' = isLoading st ->
  summaryPending st' = summaryPending st ->
  flags_live patientName st -> flags_live patientName st'.
Proof. unfold flags_live. intros -> -> -> ->. tauto. Qed.

Lemma flags_live_mounted : flags_live patientName (fst (mounted patientName)).
Proof.
  unfold mounted, fetchPatientSummary, flags_live.
  destruct patientName as [|c t]; [split; [discriminate|congruence]|].
  destruct (uri_ok (c :: t)); cbn; split; try discriminate; trivial.
Qed.

Lemma flags_live_step e st st' reqs :
  flags_live patientName st -> uri_gate patientName st ->
  step patientName e st = Some (st', reqs) ->
  flags_live patientName st'.
Proof.
  intros G U H. destruct e;
    try (after_step H;
         first [ exact G
               | apply flags_live_ext with (st := st); trivial;
                 handlers; reflexivity ]).
  - (* the summary response clears [isLoading] *)
    simpl in H. destruct (summaryPending st) eqn:P; [|discriminate].
    injection H as <- _. destruct G as [G1 _]. split.
    + handlers; exact G1.
    + intros _. handlers; discriminate.
  - (* opening the documents *)
    simpl in H. destruct (main_shown st) eqn:M; [|discriminate].
    injection H as H. apply (f_equal fst) in H. cbn [fst] in H. subst st'.
    destruct U as [_ U]. specialize (U M). destruct G as [G1 G2].
    unfold openDocumentsModal. rewrite U.
    destruct (documents st); unfold flags_live; cbn; (split; [|exact G2]);
      [intros _; lia|exact G1].
  - (* the list response clears [isLoadingDocs] *)
    simpl in H. destruct (docsPending st) eqn:P; [discriminate|].
    injection H as <- _. destruct G as [_ G2]. split.
    + handlers; discriminate.
    + handlers; exact G2.
Qed.

Lemma reachable_flags_live st :
  reachable patientName st -> flags_live patientName st.
Proof.
  induction 1 as [|e st st' reqs R IH Hs].
  - apply flags_live_mounted.
  - eapply flags_live_step; [exact IH| |exact Hs].
    now apply ChatSpec.reachable_uri_gate.
Qed.

(** X11: no loading indicator is left spinning.  In every reachable state,
    the documents spinner is on only while a list request waits, the chat
    is gated exactly while a submission waits, and, for a patient name
    that is not empty, the summary spinner is on only while the summary
    request waits. *)
Theorem loading_flags_live st :
  reachable patientName st ->
  (isLoadingDocs st = true -> 0 < docsPending st)
  /\ (isQueryLoading st = true <-> queryPending st <> [])
  /\ (patientName <> [] -> isLoading st = true -> summaryPending st = true).
Proof.
  intros R. destruct (reachable_flags_live R) as [D S].
  split; [exact D|]. split; [|exact S].
  destruct (ChatSpec.reachable_query_gate R) as [[L P]|[L [m P]]];
    rewrite L, P; split; congruence.
Qed.

Lemma list_filled_step e st st' reqs :
  list_filled st -> step patientName e st = Some (st', reqs) ->
  list_filled st'.
Proof.
  intros G H. unfold list_filled in *.
  destruct e; after_step H; handlers; intros; try discriminate;
    try (apply G; assumption); try congruence;
    try (exfalso;
         match goal with
         | X : or_default ?a _ = [] |- _ => destruct a; discriminate X
         end).
  all: unfold list_shown in *;
    repeat match goal with
    | X : _ && _ = true |- _ => apply andb_true_iff in X; destruct X
    | X : negb _ = true |- _ => apply negb_true_iff in X
    end;
    try (apply G; trivial;
         match goal with
         | X : is_empty ?s = true |- ?s = [] => now destruct s
         end).
Qed.

Lemma reachable_list_filled st : reachable patientName st -> list_filled st.
Proof.
  induction 1 as [|e st st' reqs R IH Hs].
  - unfold mounted, fetchPatientSummary, list_filled.
    destruct patientName; [discriminate|].
    destruct (uri_ok _); discriminate.
  - eapply list_filled_step; eassumption.
Qed.

(** X12: the modal never shows an empty list.  In every reachable state in
    which the modal is open and shows neither the spinner nor an error
    message, the document list held is not empty. *)
Theorem modal_list_never_blank st :
  reachable patientName st ->
  isModalOpen st = true -> isLoadingDocs st = false -> docError st = [] ->
  documents st <> [].
Proof. intros R. exact (reachable_list_filled R). Qed.

#[local] Arguments user_texts : simpl never.
#[local] Arguments alternates : simpl never.

Lemma queries_app r1 r2 : queries (r1 ++ r2) = queries r1 ++ queries r2.
Proof.
  induction r1 as [|[] t IH]; simpl; trivial. now rewrite IH.
Qed.

Lemma user_texts_app a b : user_texts (a ++ b) = user_texts a ++ user_texts b.
Proof. unfold user_texts. now rewrite filter_app, map_app. Qed.

Lemma alternates_app ms : forall s m,
  alternates s (ms ++ [m])
  = match alternates s ms with
    | Some t => if same_sender (msg_sender m) t then Some (flip t) else None
    | None => None
    end.
Proof.
  induction ms as [|x t IH]; intros s m; cbn [app]; unfold alternates;
    fold alternates.
  - destruct (same_sender (msg_sender m) s); reflexivity.
  - destruct (same_sender (msg_sender x) s); [apply IH|reflexivity].
Qed.

Lemma chat_inv_ext st st' :
  isQueryLoading st' = isQueryLoading st ->
  queryPending st' = queryPending st ->
  messages st' = messages st ->
  chat_inv st -> chat_inv st'.
Proof.
  unfold chat_inv, query_gate, transcript_held, turn.
  intros -> -> ->. tauto.
Qed.

Lemma chat_inv_mounted : chat_inv (fst (mounted patientName)).
Proof.
  split; [apply ChatSpec.query_gate_mounted|].
  unfold mounted, fetchPatientSummary, transcript_held, turn.
  destruct patientName; [split; [discriminate|reflexivity]|].
  destruct (uri_ok _); split; try discriminate; reflexivity.
Qed.

(** One step of the chat: the transcript grows at its end by at most one
    message, and by a user message exactly when a query is sent. *)
Lemma chat_step e st st' reqs :
  chat_inv st -> step patientName e st = Some (st', reqs) ->
  chat_inv st'
  /\ user_texts (messages st') = user_texts (messages st) ++ queries reqs
  /\ exists suffix, messages st' = messages st ++ suffix
                    /\ List.length suffix <= 1.
Proof.
  intros C H.
  assert (Same : forall st1 rq,
    isQueryLoading st1 = isQueryLoading st ->
    queryPending st1 = queryPending st ->
    messages st1 = messages st -> queries rq = [] ->
    chat_inv st1
    /\ user_texts (messages st1) = user_texts (messages st) ++ queries rq
    /\ exists suffix, messages st1 = messages st ++ suffix
                      /\ List.length suffix <= 1).
  { intros st1 rq E1 E2 E3 E4. split; [now apply chat_inv_ext with (st := st)|].
    rewrite E3, E4, app_nil_r. split; [reflexivity|].
    exists []. rewrite app_nil_r. split; [reflexivity|simpl; lia]. }
  destruct C as [G [Hd A]].
  destruct e; simpl in H.
  - destruct (summaryPending st); [|discriminate]. injection H as <- <-.
    apply Same; trivial; handlers; reflexivity.
  - destruct (_ && _); [|discriminate]. injection H as <- <-.
    now apply Same.
  - destruct (_ && _); [|discriminate]. injection H as <- <-.
    now apply Same.
  - destruct (_ && _); [|discriminate]. injection H as <- <-.
    now apply Same.
  - destruct (_ && _); [|discriminate]. injection H as H.
    unfold handleQuerySubmit in H.
    destruct (is_empty (trim (query st)) || isQueryLoading st) eqn:E.
    + injection H as <- <-. now apply Same.
    + injection H as <- <-. apply orb_false_iff in E. destruct E as [_ L].
      destruct G as [[_ P]|[L' _]]; [|congruence].
      unfold turn in A. rewrite L in A. cbn.
      split; [split; [|split]|split].
      * right. cbn. rewrite P. split; [reflexivity|]. eexists. reflexivity.
      * intros m. cbn. rewrite P. now intros [= <-].
      * cbn. rewrite alternates_app, A. reflexivity.
      * now rewrite user_texts_app.
      * eexists. split; [reflexivity|simpl; lia].
  - destruct (nth_error (queryPending st) i) as [m|] eqn:E; [|discriminate].
    injection H as <- <-.
    destruct G as [[_ P]|[L [m' P]]]; rewrite P in E;
      [destruct i; discriminate|].
    destruct i as [|[|i]]; try discriminate. injection E as ->.
    pose proof (Hd m P) as Hm. unfold turn in A. rewrite L in A.
    assert (Q : remove_nth 0 (queryPending st) = []) by now rewrite P.
    destruct r as [botText|message0]; rewrite Q, <- Hm;
      (split; [split; [|split]|split]).
    all: unfold transcript_held, turn, handleQuerySubmit_resume; cbn.
    all: try (left; split; reflexivity).
    all: try (intros ? [=]).
    all: try (rewrite alternates_app, A; reflexivity).
    all: try (rewrite user_texts_app, !app_nil_r; unfold user_texts; cbn;
              reflexivity).
    all: eexists; split; [reflexivity|simpl; lia].
  - destruct (main_shown st); [|discriminate]. injection H as H.
    unfold openDocumentsModal in H.
    destruct (documents st); [destruct (uri_ok patientName)|];
      injection H as <- <-; now apply Same.
  - destruct (docsPending st); [discriminate|]. injection H as <- <-.
    apply Same; trivial; handlers; reflexivity.
  - destruct (list_shown st); [|discriminate].
    destruct (nth_error (documents st) i); [|discriminate].
    injection H as <- <-. now apply Same.
  - destruct (nth_error (contentPending st) i); [|discriminate].
    injection H as <- <-. apply Same; trivial; handlers; reflexivity.
  - destruct (_ && _); [|discriminate]. injection H as <- <-.
    now apply Same.
  - destruct (_ && _); [|discriminate]. injection H as <- <-.
    now apply Same.
Qed.

Lemma chat_run es : forall st st' reqs,
  chat_inv st -> run patientName es st = Some (st', reqs) ->
  chat_inv st'
  /\ user_texts (messages st') = user_texts (messages st) ++ queries reqs
  /\ exists suffix, messages st' = messages st ++ suffix.
Proof.
  induction es as [|e es IH]; intros st st' reqs C H; simpl in H.
  - injection H as <- <-. split; [exact C|]. rewrite app_nil_r.
    split; [reflexivity|]. exists []. now rewrite app_nil_r.
  - destruct (step patientName e st) as [[st1 r1]|] eqn:E; [|discriminate].
    destruct (run patientName es st1) as [[st2 r2]|] eqn:E2; [|discriminate].
    injection H as <- <-.
    destruct (@chat_step e st st1 r1 C E) as [C1 [U1 [s1 [M1 _]]]].
    destruct (IH _ _ _ C1 E2) as [C2 [U2 [s2 M2]]].
    split; [exact C2|]. split.
    + now rewrite U2, U1, queries_app, app_assoc.
    + exists (s1 ++ s2). now rewrite M2, M1, app_assoc.
Qed.

(** X13: along every run of the detail view, the queries sent to the server
    are the user's messages of the transcript, text for text and in the
    same order: no submission is sent twice, none is retried, none is
    dropped. *)
Theorem transcript_matches_queries es st reqs :
  run patientName es (fst (mounted patientName)) = Some (st, reqs) ->
  user_texts (messages st) = queries reqs.
Proof.
  intros H.
  destruct (@chat_run es _ st reqs chat_inv_mounted H) as [_ [U _]].
  rewrite U. unfold mounted, fetchPatientSummary.
  destruct patientName; [reflexivity|]. destruct (uri_ok _); reflexivity.
Qed.

(** X14: the transcript is append-only and alternates.  In every reachable
    state its messages come from the user and the bot in turn, starting
    with the user, and the last one is the user's exactly while a
    submission waits; a step leaves the messages already there in place
    and adds at most one at the end. *)
Theorem transcript_alternates e st st' reqs :
  reachable patientName st ->
  step patientName e st = Some (st', reqs) ->
  alternates user (messages st) = Some (turn st)
  /\ alternates user (messages st') = Some (turn st')
  /\ exists suffix, messages st' = messages st ++ suffix
                    /\ List.length suffix <= 1.
Proof.
  intros R H.
  assert (C : chat_inv st).
  { clear H. induction R as [|e0 s0 s1 r0 _ IH Hs].
    - apply chat_inv_mounted.
    - now destruct (@chat_step e0 s0 s1 r0 IH Hs). }
  destruct (@chat_step e st st' reqs C H) as [[_ [_ A']] [_ S]].
  destruct C as [_ [_ A]]. auto.
Qed.

(** X15: a submission is without effect exactly when the input is made of
    white space only or an earlier submission waits.  Any other submission
    sends the input as it was typed, without trimming it, appends it to the
    transcript as a user message with the time of the click, clears the
    input and closes the gate. *)
Theorem submit_noop_iff now st :
  (handleQuerySubmit patientName now st = (st, [])
   <-> forallb is_space (query st) = true \/ isQueryLoading st = true)
  /\ (forallb is_space (query st) = false -> isQueryLoading st = false ->
      snd (handleQuerySubmit patientName now st)
      = [PostQuery patientName (query st)]
      /\ messages (fst (handleQuerySubmit patientName now st))
         = messages st ++ [mkMessage user (query st) now false]
      /\ query (fst (handleQuerySubmit patientName now st)) = []
      /\ isQueryLoading (fst (handleQuerySubmit patientName now st)) = true).
Proof.
  assert (T : is_empty (trim (query st)) = forallb is_space (query st)).
  { destruct (forallb is_space (query st)) eqn:E.
    - apply ChatSpec.trim_nil in E. now rewrite E.
    - destruct (trim (query st)) eqn:E'; [|reflexivity].
      apply ChatSpec.trim_nil in E'. congruence. }
  unfold handleQuerySubmit. rewrite T. split.
  - destruct (forallb is_space (query st)), (isQueryLoading st); cbn;
      split; auto; try discriminate. intros [|]; discriminate.
  - intros -> ->. cbn. auto.
Qed.

End Invariants.

Lemma reach_after es reqs st :
  run jane es (fst (mounted jane)) = Some (st, reqs) ->
  reachable jane (after es).
Proof.
  intros H. unfold after. rewrite H.
  eapply ChatSpec.run_reachable; [apply reach_mount|exact H].
Qed.

Lemma summary_panel_consistent_witness :
  summary_view (after [SummaryResponse (ok metformin_only)])
  /\ (main_shown (after [SummaryResponse (ok metformin_only)]) = true ->
      exists p,
        profileData (after [SummaryResponse (ok metformin_only)]) = Some p
        /\ populated p).
Proof.
  apply (@summary_panel_consistent jane
           (after [SummaryResponse (ok metformin_only)])).
  eapply reach_after. vm_compute. reflexivity.
Defined.

Lemma loading_flags_live_witness :
  (isLoadingDocs (after question_sent) = true ->
   0 < docsPending (after question_sent))
  /\ (isQueryLoading (after question_sent) = true
      <-> queryPending (after question_sent) <> [])
  /\ (jane <> [] -> isLoading (after question_sent) = true ->
      summaryPending (after question_sent) = true).
Proof.
  apply (@loading_flags_live jane (after question_sent)).
  eapply reach_after. vm_compute. reflexivity.
Defined.

Lemma modal_list_never_blank_witness :
  documents
    (after [SummaryResponse (ok (JObj [])); OpenDocuments;
            DocsResponse (ok [docA; docB])])
  <> [].
Proof.
  apply (@modal_list_never_blank jane
           (after [SummaryResponse (ok (JObj [])); OpenDocuments;
                   DocsResponse (ok [docA; docB])])).
  - eapply reach_after. vm_compute. reflexivity.
  - reflexivity.
  - reflexivity.
  - reflexivity.
Defined.

Lemma transcript_matches_queries_witness :
  user_texts (messages (after two_questions))
  = queries [PostQuery jane (lit "What medications?");
             PostQuery jane (lit " Any allergies? ")].
Proof.
  apply (@transcript_matches_queries jane two_questions
           (after two_questions)).
  vm_compute. reflexivity.
Defined.

Lemma transcript_alternates_witness :
  alternates user (messages (after question_sent))
  = Some (turn (after question_sent))
  /\ alternates user
       (messages
          (setQueryPending []
             (handleQuerySubmit_resume
                [mkMessage user (lit "What medications?") 1000 false] 1500
                (Answer (lit "Metformin.")) (after question_sent))))
     = Some
         (turn
            (setQueryPending []
               (handleQuerySubmit_resume
                  [mkMessage user (lit "What medications?") 1000 false] 1500
                  (Answer (lit "Metformin.")) (after question_sent))))
  /\ exists suffix,
       messages
         (setQueryPending []
            (handleQuerySubmit_resume
               [mkMessage user (lit "What medications?") 1000 false] 1500
               (Answer (lit "Metformin.")) (after question_sent)))
       = messages (after question_sent) ++ suffix
       /\ List.length suffix <= 1.
Proof.
  apply (@transcript_alternates jane
           (QueryResponse 0 1500 (Answer (lit "Metformin.")))
           (after question_sent) _ []).
  - eapply reach_after. vm_compute. reflexivity.
  - vm_compute. reflexivity.
Defined.

End ChatMore.

(** ** More on the grouping and the document list *)

Module DocsMore.
Import JS JSON Gateway PatientChat Words Samples Notions.

Lemma NoDup_keys_set (A : Type) (m : list (jsstring * A)) k v :
  NoDup (map fst m) -> NoDup (map fst (set m k v)).
Proof.
  rewrite <- !AppSpec.distinct_NoDup. apply AppSpec.distinct_set.
Qed.

Lemma In_own (A : Type) (m : list (jsstring * A)) k v :
  NoDup (map fst m) -> In (k, v) m -> own m k = Some v.
Proof.
  induction m as [|[k' v'] t IH]; simpl; [contradiction|].
  intros N H. inversion N as [|? ? Hn Hd]. destruct H as [E|H].
  - injection E as E1 E2. destruct (jsstring_eq_dec k k'); congruence.
  - destruct (jsstring_eq_dec k k') as [E|_]; [|now apply IH].
    exfalso. apply Hn. apply in_map_iff. exists (k, v). split; [|exact H].
    simpl. congruence.
Qed.

Lemma grouped_count_set g k l l' :
  own g k = Some l ->
  grouped_count (set g k l') + List.length l
  = grouped_count g + List.length l'.
Proof.
  unfold grouped_count. induction g as [|[k0 l0] t IH]; simpl;
    [discriminate|].
  destruct (jsstring_eq_dec k k0) as [->|_]; simpl.
  - intros [= ->]. lia.
  - intros H. specialize (IH H). lia.
Qed.

Lemma grouped_count_fresh g k l' :
  own g k = None ->
  grouped_count (set g k l') = grouped_count g + List.length l'.
Proof.
  intros H. rewrite ObjectFacts.set_fresh by exact H.
  unfold grouped_count. rewrite map_app, list_sum_app. simpl. lia.
Qed.

(** What the reducer keeps: distinct headings, none of them inherited, and
    one more document in the groups per document read. *)
Lemma group_fold_keeps docs : forall g g',
  fold_left group_step docs (Some g) = Some g' ->
  NoDup (map fst g) -> own_names g ->
  NoDup (map fst g') /\ own_names g'
  /\ grouped_count g' = grouped_count g + List.length docs.
Proof.
  induction docs as [|d docs IH]; intros g g' H N O; simpl in H.
  - injection H as <-. split; [exact N|]. split; [exact O|simpl; lia].
  - destruct (own g (group_name d)) as [l|] eqn:E.
    + destruct (IH _ _ H) as [N' [O' C']].
      * now apply NoDup_keys_set.
      * intros k. rewrite ObjectFacts.keys_set, E. apply O.
      * split; [exact N'|]. split; [exact O'|].
        pose proof (grouped_count_set g (group_name d) (l ++ [d]) E) as S.
        rewrite length_app in S. simpl in *. lia.
    + destruct (inherited (group_name d)) eqn:I;
        [rewrite ChatSpec.group_fold_None in H; discriminate|].
      destruct (IH _ _ H) as [N' [O' C']].
      * now apply NoDup_keys_set.
      * intros k. rewrite ObjectFacts.keys_set, E, in_app_iff.
        intros [Hk|[<-|[]]]; [now apply O|exact I].
      * split; [exact N'|]. split; [exact O'|].
        rewrite (grouped_count_fresh g (group_name d) [d] E) in C'.
        simpl in *. lia.
Qed.

Lemma grouped_partition docs g :
  groupedDocuments docs = Some g ->
  NoDup (map fst g)
  /\ (forall k l,
        In (k, l) g <-> l = filter (named k) docs /\ l <> [])
  /\ grouped_count g = List.length docs.
Proof.
  intros H.
  destruct (@group_fold_keeps docs [] g H) as [N [_ C]];
    [constructor|intros k []|].
  split; [exact N|]. split; [|exact C].
  intros k l. pose proof (@ChatSpec.group_fold_spec docs [] g H k) as S.
  cbn [own] in S. split.
  - intros Hin. apply (In_own _ _ _ N) in Hin. rewrite Hin in S.
    destruct (filter (named k) docs); [discriminate|].
    injection S as ->. split; [reflexivity|discriminate].
  - intros [-> Hne]. apply ObjectFacts.own_In. rewrite S.
    destruct (filter (named k) docs); [congruence|reflexivity].
Qed.

(** X16: whenever the grouping completes, it is a partition of the list:
    the headings are pairwise different, the group under a heading is not
    empty and holds exactly the documents of that name in the order of the
    list, and the groups together hold as many documents as the list. *)
Theorem grouping_partition docs g :
  groupedDocuments docs = Some g ->
  NoDup (map fst g)
  /\ (forall k l,
        In (k, l) g <-> l = filter (named k) docs /\ l <> [])
  /\ grouped_count g = List.length docs.
Proof. apply grouped_partition. Qed.

Lemma grouping_partition_witness :
  NoDup (map fst [(lit "Labs", [docA; docB]); (lit "Other", [docC])])
  /\ (forall k l,
        In (k, l) [(lit "Labs", [docA; docB]); (lit "Other", [docC])]
        <-> l = filter (named k) [docA; docB; docC] /\ l <> [])
  /\ grouped_count [(lit "Labs", [docA; docB]); (lit "Other", [docC])]
     = List.length [docA; docB; docC].
Proof.
  apply (@grouping_partition [docA; docB; docC]
           [(lit "Labs", [docA; docB]); (lit "Other", [docC])]).
  vm_compute. reflexivity.
Defined.

Lemma group_fold_inherited docs : forall g d,
  own_names g -> In d docs -> inherited (group_name d) = true ->
  fold_left group_step docs (Some g) = None.
Proof.
  induction docs as [|x docs IH]; intros g d O Hin Hd; [contradiction|].
  simpl. destruct (own g (group_name x)) as [l|] eqn:E.
  - destruct Hin as [->|Hin].
    + apply ObjectFacts.own_In in E.
      assert (K : In (group_name d) (map fst g)).
      { apply in_map_iff. exists (group_name d, l). auto. }
      apply O in K. congruence.
    + apply (IH _ d); trivial.
      intros k. rewrite ObjectFacts.keys_set, E. apply O.
  - destruct (inherited (group_name x)) eqn:I;
      [apply ChatSpec.group_fold_None|].
    destruct Hin as [->|Hin]; [congruence|].
    apply (IH _ d); trivial.
    intros k. rewrite ObjectFacts.keys_set, E, in_app_iff.
    intros [Hk|[<-|[]]]; [now apply O|exact I].
Qed.

(** X17: the grouping breaks exactly on the lists that hold a document
    whose group name is a property name every object inherits; on every
    other list it completes. *)
Theorem grouping_fails_iff docs :
  groupedDocuments docs = None
  <-> exists d, In d docs /\ inherited (group_name d) = true.
Proof.
  split.
  - intros H.
    destruct (existsb (fun d => inherited (group_name d)) docs) eqn:E.
    + apply existsb_exists in E. exact E.
    + exfalso.
      assert (T : forall d, In d docs -> inherited (group_name d) = false).
      { intros d Hd. destruct (inherited (group_name d)) eqn:I; trivial.
        assert (existsb (fun d => inherited (group_name d)) docs = true);
          [|congruence].
        apply existsb_exists. eauto. }
      destruct (@ChatSpec.group_fold_total docs [] T) as [g Hg].
      pose proof (eq_trans (eq_sym Hg) H) as X. discriminate X.
  - intros [d [Hin Hd]].
    apply (@group_fold_inherited docs [] d); trivial. intros k [].
Qed.

Lemma mapM_None_inv (A B : Type) (f : A -> option B) l :
  mapM f l = None -> exists x, In x l /\ f x = None.
Proof.
  induction l as [|x t IH]; simpl; [discriminate|].
  destruct (f x) eqn:E; [|intros _; exists x; auto].
  destruct (mapM f t); [discriminate|].
  intros _. destruct (IH eq_refl) as [y [Hy Ey]]. exists y. auto.
Qed.

Lemma mapM_Some_length (A B : Type) (f : A -> option B) l : forall r,
  mapM f l = Some r -> List.length r = List.length l.
Proof.
  induction l as [|x t IH]; simpl; intros r H.
  - now injection H as <-.
  - destruct (f x); [|discriminate]. destruct (mapM f t) as [r'|];
      [|discriminate].
    injection H as <-. simpl. f_equal. now apply IH.
Qed.

Section Rendering.

Variable toLowerCase : jsstring -> jsstring.

Lemma render_sections_count g : forall sections,
  mapM (render_section toLowerCase) g = Some sections ->
  map fst sections = map fst g
  /\ list_sum (map (fun s => List.length (snd s)) sections)
     = grouped_count g.
Proof.
  unfold grouped_count.
  induction g as [|[k l] t IH]; simpl; intros sections H.
  - injection H as <-. split; reflexivity.
  - unfold render_section at 1 in H. cbn [fst snd] in H.
    destruct (mapM (render_item toLowerCase) l) as [items|] eqn:E;
      [|discriminate].
    destruct (mapM (render_section toLowerCase) t) as [r|]; [|discriminate].
    injection H as <-. destruct (IH r eq_refl) as [F C]. simpl.
    apply mapM_Some_length in E. rewrite F, C, E. split; reflexivity.
Qed.

(** X18: the document list cannot be rendered exactly when the grouping
    breaks or some document has no category.  When it is rendered, there
    is one section per group, under the headings of the groups and in their
    order, and the sections together have one item per document. *)
Theorem rendering_fails_iff docs :
  (render_document_list toLowerCase docs = None
   <-> groupedDocuments docs = None
       \/ exists d, In d docs /\ category d = None)
  /\ (forall sections g,
        render_document_list toLowerCase docs = Some sections ->
        groupedDocuments docs = Some g ->
        map fst sections = map fst g
        /\ list_sum (map (fun s => List.length (snd s)) sections)
           = List.length docs).
Proof.
  split.
  - unfold render_document_list. split.
    + intros H. destruct (groupedDocuments docs) as [g|] eqn:G; [|now left].
      right. apply mapM_None_inv in H. destruct H as [[k l] [Hin Hs]].
      unfold render_section in Hs. cbn [fst snd] in Hs.
      destruct (mapM (render_item toLowerCase) l) eqn:E; [discriminate|].
      apply mapM_None_inv in E. destruct E as [d [Hd Hi]].
      exists d. split.
      * destruct (grouped_partition docs G) as [_ [P _]].
        apply P in Hin. destruct Hin as [-> _].
        apply filter_In in Hd. tauto.
      * unfold render_item, className in Hi.
        destruct (category d); [discriminate|reflexivity].
    + intros [G|[d [Hin Hc]]]; [now rewrite G|].
      destruct (groupedDocuments docs) as [g|] eqn:G; [|reflexivity].
      destruct (@ChatSpec.grouped_placement docs g d G Hin) as [l [Ho Hl]].
      apply ChatSpec.mapM_None with (x := (group_name d, l)).
      * now apply ObjectFacts.own_In.
      * unfold render_section. cbn [fst snd].
        rewrite (@ChatSpec.mapM_None _ _ (render_item toLowerCase) l d Hl);
          [reflexivity|].
        unfold render_item, className. now rewrite Hc.
  - intros sections g H G. unfold render_document_list in H.
    rewrite G in H. destruct (render_sections_count g H) as [F C].
    split; [exact F|]. rewrite C.
    now destruct (grouped_partition docs G) as [_ [_ ->]].
Qed.

End Rendering.

End DocsMore.
